(** * The Membership contract of the voting example

  A shallow embedding of [src/examples/zkapps/voting/membership.ts]: the
  module-level variable [participantPreconditions], the factory
  [Membership], and the three methods [addEntry], [isMember] and [publish]
  of the class [Membership_].

  The contract is written against the snarkyjs library.  The library
  classes it uses (field elements, public keys, the reducer, Merkle
  witnesses, the [Member] class of [./member]) are not part of the sources
  at hand; each of them is given here by a small model whose comment says
  where it comes from. *)

From Stdlib Require Import ZArith List Bool Ascii String Lia Permutation.
Import ListNotations.
Open Scope Z_scope.

(** ** Value types of the library *)

(** A field element, used as an opaque value: the contract only hashes
    field elements and compares them. *)
Definition Field := Z.

Module UInt64.
Definition t := Z.
Definition gte (a b : t) : bool := b <=? a.
Definition lte (a b : t) : bool := a <=? b.
Definition equals (a b : t) : bool := a =? b.
End UInt64.

Module Circuit.
(** [Circuit.if(b, x, y)]: an ordinary call, so both [x] and [y] are values
    by the time the selection happens. *)
Definition if_ {A : Type} (b : bool) (x y : A) : A := if b then x else y.
End Circuit.

Module Poseidon.
(** [Poseidon.hash]: the hash function of the library, kept abstract. *)
Class Hash := hash : list Field -> Field.
End Poseidon.

Module PublicKey.
Record t := mk { x : Field; isOdd : bool }.
Definition empty : t := mk 0 false.
Definition equals (a b : t) : bool :=
  (x a =? x b) && Bool.eqb (isOdd a) (isOdd b).
Definition toFields (k : t) : list Field :=
  [x k; if isOdd k then 1 else 0].
End PublicKey.

Module MerkleWitness.
(** Modelled from the spec: the witness class is not among the sources.
    The spec describes a witness as a sibling-hash path from which
    [recomputeRoot(leafValue, witness)] recomputes a root, purely and
    deterministically.  A path is a list of levels, leaf first; each
    level holds the sibling hash and tells on which side the running
    node sits. *)
Definition t := list (bool * Field).

Definition calculateRoot `{Poseidon.Hash} (w : t) (leaf : Field) : Field :=
  fold_left
    (fun node level =>
       let left := Circuit.if_ (fst level) node (snd level) in
       let right := Circuit.if_ (fst level) (snd level) node in
       Poseidon.hash [left; right])
    w leaf.

Fixpoint equals (a b : t) : bool :=
  match a, b with
  | [], [] => true
  | (l1, s1) :: a', (l2, s2) :: b' =>
      Bool.eqb l1 l2 && (s1 =? s2) && equals a' b'
  | _, _ => false
  end.

Definition toFields (w : t) : list Field :=
  flat_map
    (fun level : bool * Field => [if fst level then 1 else 0; snd level]) w.
End MerkleWitness.

Module Member.
(** Modelled from the spec: the class [Member] of [./member] is not among
    the sources.  The spec's MembershipEntry is
    [{ identity, attribute, witness }] with a distinguished empty value
    that carries the sentinel identity; the contract names the identity
    [publicKey] and the attribute [balance]. *)
Record t := mk {
  publicKey : PublicKey.t;
  balance : UInt64.t;
  witness : MerkleWitness.t
}.

Definition empty : t := mk PublicKey.empty 0 [].

Definition equals (a b : t) : bool :=
  PublicKey.equals (publicKey a) (publicKey b)
  && UInt64.equals (balance a) (balance b)
  && MerkleWitness.equals (witness a) (witness b).

Definition toFields (m : t) : list Field :=
  PublicKey.toFields (publicKey m) ++ [balance m]
    ++ MerkleWitness.toFields (witness m).
End Member.

(** ** Module-level state and the factory *)

Record ParticipantPreconditions := {
  minMina : UInt64.t;
  maxMina : UInt64.t
}.

Module MembershipParams.
Record t := mk {
  participantPreconditions : ParticipantPreconditions;
  contractAddress : PublicKey.t;
  doProofs : bool
}.
End MembershipParams.

(** The variables declared with [let] at the top of the module.  There is
    one, [participantPreconditions]; it starts at
    [ParticipantPreconditions.default], which is defined outside the
    sources, so every statement below ranges over all its values. *)
Record ModuleState := {
  participantPreconditions : ParticipantPreconditions
}.

(** ** The contract's storage *)

(** The on-chain state of one contract: the two fields declared with
    [@state(Field)], and the actions dispatched to its reducer so far. *)
Record Contract := {
  committedMembers : Field;
  accumulatedMembers : Field;
  actions : list Member.t
}.

Inductive StateVar := CommittedMembers | AccumulatedMembers.

Definition read (v : StateVar) (c : Contract) : Field :=
  match v with
  | CommittedMembers => committedMembers c
  | AccumulatedMembers => accumulatedMembers c
  end.

Definition write (v : StateVar) (x : Field) (c : Contract) : Contract :=
  match v with
  | CommittedMembers =>
      {| committedMembers := x;
         accumulatedMembers := accumulatedMembers c;
         actions := actions c |}
  | AccumulatedMembers =>
      {| committedMembers := committedMembers c;
         accumulatedMembers := x;
         actions := actions c |}
  end.

(** The storage with one more action at the end of the log. *)
Definition appended (a : Member.t) (c : Contract) : Contract :=
  {| committedMembers := committedMembers c;
     accumulatedMembers := accumulatedMembers c;
     actions := actions c ++ [a] |}.

(** ** The method monad

    A method reads the module-level variables, reads and writes the storage
    of its contract, and either returns or throws. *)

Inductive Error :=
| AssertTrueFailed
| AssertEqualsFailed (v : StateVar).

Inductive Result (A : Type) :=
| Ok (a : A)
| Thrown (e : Error).
Arguments Ok {A} a.
Arguments Thrown {A} e.

Definition M (A : Type) : Type :=
  ModuleState -> Contract -> Result (A * Contract).

Definition ret {A : Type} (a : A) : M A := fun _ c => Ok (a, c).

Definition bind {A B : Type} (m : M A) (k : A -> M B) : M B :=
  fun g c =>
    match m g c with
    | Ok (a, c') => k a g c'
    | Thrown e => Thrown e
    end.

Declare Scope method_scope.
Delimit Scope method_scope with method.
Notation "x <- m ;; k" := (bind m (fun x => k))
  (at level 100, m at next level, right associativity) : method_scope.
Notation "m ;; k" := (bind m (fun _ => k))
  (at level 100, right associativity) : method_scope.
Open Scope method_scope.

(** Reading a module-level variable. *)
Definition moduleVar {A : Type} (proj : ModuleState -> A) : M A :=
  fun g c => Ok (proj g, c).

Module State.
Definition get (v : StateVar) : M Field := fun _ c => Ok (read v c, c).

Definition set (v : StateVar) (x : Field) : M unit :=
  fun _ c => Ok (tt, write v x c).

(** The precondition that the on-chain value is [x]. *)
Definition assertEquals (v : StateVar) (x : Field) : M unit :=
  fun _ c =>
    if read v c =? x then Ok (tt, c) else Thrown (AssertEqualsFailed v).
End State.

Module Bool_.
(** The method [assertTrue] of the library's [Bool]: throws on [false]. *)
Definition assertTrue (b : bool) : M unit :=
  fun _ c => if b then Ok (tt, c) else Thrown AssertTrueFailed.
End Bool_.

(** ** The reducer *)

Module Reducer.
Record FoldState (T : Type) := mk { state : T; actionsHash : Field }.
Arguments mk {T} state actionsHash.
Arguments state {T} f.
Arguments actionsHash {T} f.

(** Modelled from the spec: the marker of the action log is a running
    content hash, advanced by one action at a time. *)
Definition pushAction `{Poseidon.Hash} (marker : Field) (a : Member.t)
  : Field :=
  Poseidon.hash [marker; Poseidon.hash (Member.toFields a)].

(** Modelled from the spec: [Experimental.Reducer] is not among the
    sources.  The spec's fold engine applies [step] left to right over the
    pending actions in append order, starting from the checkpoint
    [initial], and returns the final value together with the marker of
    the log after the processed actions. *)
Definition reduce `{Poseidon.Hash} {T : Type} (pendingActions : list Member.t)
    (step : T -> Member.t -> T) (initial : FoldState T) : FoldState T :=
  fold_left
    (fun acc a => mk (step (state acc) a) (pushAction (actionsHash acc) a))
    pendingActions initial.

(** [this.reducer.dispatch(action)] appends one action to the log. *)
Definition dispatch (a : Member.t) : M unit :=
  fun _ c => Ok (tt, appended a c).
End Reducer.

(** ** Calls made while a step function runs

    The step function of [publish] calls [Poseidon.hash] and
    [calculateRoot].  To speak about which of these calls are made, the
    step is written in a writer monad that records them in order. *)

Inductive Call :=
| HashCall (input : list Field)
| CalculateRootCall (w : MerkleWitness.t) (leaf : Field).

Definition Traced (A : Type) : Type := (A * list Call)%type.

Definition tret {A : Type} (a : A) : Traced A := (a, []).

Definition tbind {A B : Type} (m : Traced A) (k : A -> Traced B) : Traced B :=
  let r := k (fst m) in (fst r, snd m ++ snd r).

Definition hashT `{Poseidon.Hash} (input : list Field) : Traced Field :=
  (Poseidon.hash input, [HashCall input]).

Definition calculateRootT `{Poseidon.Hash} (w : MerkleWitness.t) (leaf : Field)
  : Traced Field :=
  (MerkleWitness.calculateRoot w leaf, [CalculateRootCall w leaf]).

(** ** The factory [Membership]

    [Membership(params)] overwrites the module-level variable and returns a
    new contract instance for [params.contractAddress].  Compiling the
    contract when [doProofs] is set touches neither. *)

Record Membership_ := { address : PublicKey.t }.

Definition Membership (params : MembershipParams.t) (g : ModuleState)
  : ModuleState * Membership_ :=
  let g' :=
    {| participantPreconditions :=
         MembershipParams.participantPreconditions params |} in
  let contract := {| address := MembershipParams.contractAddress params |} in
  (g', contract).

(** ** The methods of [Membership_] *)

Section Methods.
Context `{Poseidon.Hash}.

(** The expression that opens [addEntry], up to the property access
    [.assertTrue]: the range test of the member's balance against the
    module-level preconditions. *)
Definition rangeTest (member : Member.t) : M bool :=
  pp <- moduleVar participantPreconditions ;;
  ret (UInt64.gte (Member.balance member) (minMina pp)
       && UInt64.lte (Member.balance member) (maxMina pp)).

(** The step function that [addEntry] hands to the reducer. *)
Definition existsStep (member : Member.t) (state : bool) (_action : Member.t)
  : bool :=
  Member.equals _action member || state.

(** The body of [addEntry].  The first argument of [reduce], the list of
    pending actions, is the literal [[]] in the source; it is a parameter
    here and [addEntry] below instantiates it.

    The statement that opens the method ends in [.assertTrue] without an
    argument list: it looks the method up and never calls it.  So the
    range test is evaluated, the assertion on its result is named, and
    that assertion is not sequenced into the method. *)
Definition addEntryOver (pendingActions : list Member.t) (member : Member.t)
  : M bool :=
  inRange <- rangeTest member ;;
  let _assertTrue := Bool_.assertTrue inRange in
  accumulatedMembers <- State.get AccumulatedMembers ;;
  State.assertEquals AccumulatedMembers accumulatedMembers ;;
  let exists_ :=
    Reducer.state
      (Reducer.reduce pendingActions (existsStep member)
         (Reducer.mk false accumulatedMembers)) in
  let toEmit := Circuit.if_ exists_ Member.empty member in
  Reducer.dispatch toEmit ;;
  ret exists_.

Definition addEntry (member : Member.t) : M bool := addEntryOver [] member.

(** The value that [addEntryOver] binds to [exists]: the scan's result. *)
Definition scanOf (pendingActions : list Member.t) (member : Member.t)
    (c : Contract) : bool :=
  Reducer.state
    (Reducer.reduce pendingActions (existsStep member)
       (Reducer.mk false (accumulatedMembers c))).

Definition isMember (member : Member.t) : M bool :=
  committedMembers <- State.get CommittedMembers ;;
  State.assertEquals CommittedMembers committedMembers ;;
  ret (MerkleWitness.calculateRoot (Member.witness member)
         (Poseidon.hash (Member.toFields member))
       =? committedMembers).

(** The step function that [publish] hands to the reducer, with the calls
    it makes.  The arguments of [Circuit.if] are computed before it is
    called. *)
Definition merkleStepT (state : Field) (_action : Member.t) : Traced Field :=
  let isRealMember :=
    Circuit.if_
      (PublicKey.equals (Member.publicKey _action) PublicKey.empty)
      false true in
  tbind (hashT (Member.toFields _action)) (fun leaf =>
  tbind (calculateRootT (Member.witness _action) leaf) (fun newRoot =>
  tret (Circuit.if_ isRealMember newRoot state))).

Definition merkleStep (state : Field) (_action : Member.t) : Field :=
  fst (merkleStepT state _action).

(** The body of [publish], with the list of pending actions as a
    parameter as for [addEntryOver]. *)
Definition publishOver (pendingActions : list Member.t) : M unit :=
  accumulatedMembers <- State.get AccumulatedMembers ;;
  State.assertEquals AccumulatedMembers accumulatedMembers ;;
  committedMembers <- State.get CommittedMembers ;;
  State.assertEquals CommittedMembers committedMembers ;;
  let r :=
    Reducer.reduce pendingActions merkleStep
      (Reducer.mk committedMembers accumulatedMembers) in
  State.set CommittedMembers (Reducer.state r) ;;
  State.set AccumulatedMembers (Reducer.actionsHash r).

Definition publish : M unit := publishOver [].

(** ** Sequences of calls

    One call of a method, with the pending actions its reducer run is
    given, and the storage a sequence of calls leaves behind.  A call that
    throws leaves the storage as it was. *)

Inductive Invocation :=
| CallAddEntry (pendingActions : list Member.t) (member : Member.t)
| CallIsMember (member : Member.t)
| CallPublish (pendingActions : list Member.t).

Definition storageAfter {A : Type} (m : M A) (g : ModuleState) (c : Contract)
  : Contract :=
  match m g c with
  | Ok (_, c') => c'
  | Thrown _ => c
  end.

Definition invoke (g : ModuleState) (i : Invocation) (c : Contract)
  : Contract :=
  match i with
  | CallAddEntry pending member =>
      storageAfter (addEntryOver pending member) g c
  | CallIsMember member => storageAfter (isMember member) g c
  | CallPublish pending => storageAfter (publishOver pending) g c
  end.

(** Each call comes with the module state it runs under, which the factory
    may have changed in between. *)
Definition history (calls : list (ModuleState * Invocation)) (c : Contract)
  : Contract :=
  fold_left (fun c' call => invoke (fst call) (snd call) c') calls c.

(** The actions handed to the [publish] calls of a sequence, in order. *)
Definition published (calls : list (ModuleState * Invocation))
  : list Member.t :=
  flat_map
    (fun call : ModuleState * Invocation =>
       match snd call with
       | CallPublish pending => pending
       | _ => []
       end)
    calls.

End Methods.

(** A concrete hash function, to run the methods on examples. *)
Definition sampleHash : Poseidon.Hash :=
  fun input => fold_left (fun acc v => (31 * acc + v + 7) mod 1000003) input 1.

(** Sample data: two contracts' parameters, a storage, and members that
    differ in nothing but the balance. *)
Definition keyA : PublicKey.t := PublicKey.mk 11 true.
Definition keyB : PublicKey.t := PublicKey.mk 12 false.
Definition pathA : MerkleWitness.t := [(true, 3); (false, 9)].
Definition memberA5 : Member.t := Member.mk keyA 5 pathA.
Definition memberA6 : Member.t := Member.mk keyA 6 pathA.
Definition bounds_0_10 : ParticipantPreconditions :=
  {| minMina := 0; maxMina := 10 |}.
Definition bounds_10_20 : ParticipantPreconditions :=
  {| minMina := 10; maxMina := 20 |}.
Definition paramsA : MembershipParams.t :=
  MembershipParams.mk bounds_0_10 keyA false.
Definition paramsB : MembershipParams.t :=
  MembershipParams.mk bounds_10_20 keyB false.
Definition module_0_10 : ModuleState :=
  {| participantPreconditions := bounds_0_10 |}.
Definition module_10_20 : ModuleState :=
  {| participantPreconditions := bounds_10_20 |}.
Definition fresh : Contract :=
  {| committedMembers := 100; accumulatedMembers := 200; actions := [] |}.

(** * The library patches and the stack-trace prettifier

    Two more pieces of the library: the file that patches the classes
    [Bool] and [Scalar], and the file with the decorator
    [CatchAndPrettifyStacktrace] and the functions that trim the lines of a
    stack trace. *)

(** ** Binary encoding of [Bool]

    The two functions of the object handed to [defineBinable], and
    [Bool.sizeInBytes].  [defineBinable] itself is defined in another
    file. *)

Module BoolBinable.
(** The element [a[i]] of a JS array: [undefined] outside the array. *)
Definition at_ (bytes : list Z) (i : Z) : option Z :=
  if i <? 0 then None else nth_error bytes (Z.to_nat i).

(** [toBytes(b)] is [[Number(b.toBoolean())]]. *)
Definition toBytes (b : bool) : list Z := [if b then 1 else 0].

(** [readBytes(bytes, offset)] is [[Bool(!!bytes[offset]), offset + 1]];
    [!!n] is false for the number 0 and for [undefined]. *)
Definition readBytes (bytes : list Z) (offset : Z) : bool * Z :=
  (match at_ bytes offset with
   | Some n => negb (n =? 0)
   | None => false
   end,
   offset + 1).

Definition sizeInBytes : Z := 1.
End BoolBinable.

(** ** Compressed form of a [Scalar] *)

Module Scalar.
(** What [toFieldsCompressed] looks at in a scalar: whether all of its
    fields are constants, and its [constantValue], a byte array or
    [undefined]. *)
Record t := mk {
  fieldsAreConstant : bool;
  constantValue : option (list Z)
}.

Record Compressed := { field : Field; highBit : bool }.

Inductive Outcome :=
| Returns (r : Compressed)
| ThrowsNotAvailable.

Section ToFieldsCompressed.
(** Three things the function takes from other files: the bit size of the
    field, the constructor [Field] applied to a bigint, and the conversion
    of a byte array to a bigint. *)
Variable sizeInBits : Z.
Variable FieldOf : Z -> Field.
Variable bytesToBigInt : list Z -> Z.

Definition toFieldsCompressed (s : t) : Outcome :=
  let isConstant := fieldsAreConstant s in
  match constantValue s with
  | Some bytes =>
      if negb isConstant then ThrowsNotAvailable
      else
        let x := bytesToBigInt bytes in
        let lowBitSize := sizeInBits - 1 in
        let lowBitMask := Z.shiftl 1 lowBitSize - 1 in
        Returns {| field := FieldOf (Z.land x lowBitMask);
                   highBit := Z.shiftr x lowBitSize =? 1 |}
  | None => ThrowsNotAvailable
  end.
End ToFieldsCompressed.
End Scalar.

(** ** Strings and arrays of JavaScript

    A string is its sequence of code units; the functions below only
    compare code units and count them. *)

Definition str := list ascii.

Definition lit (s : string) : str := list_ascii_of_string s.

Module Js.
Fixpoint eqb (a b : str) : bool :=
  match a, b with
  | [], [] => true
  | x :: a', y :: b' => Ascii.eqb x y && eqb a' b'
  | _, _ => false
  end.

Fixpoint startsWith (needle s : str) : bool :=
  match needle, s with
  | [], _ => true
  | x :: needle', y :: s' => Ascii.eqb x y && startsWith needle' s'
  | _ :: _, [] => false
  end.

(** The position of the first occurrence of [needle] in [s]. *)
Fixpoint find (needle s : str) : option nat :=
  if startsWith needle s then Some 0%nat
  else
    match s with
    | [] => None
    | _ :: s' => option_map S (find needle s')
    end.

(** [s.indexOf(needle)]: -1 when there is no occurrence. *)
Definition indexOf (needle s : str) : Z :=
  match find needle s with
  | Some i => Z.of_nat i
  | None => -1
  end.

(** [s.includes(needle)]. *)
Definition includes (needle s : str) : bool :=
  match find needle s with
  | Some _ => true
  | None => false
  end.

(** [a.slice(start, end)] for strings and arrays alike: a negative index
    counts from the end, indices are clamped to the length, and a missing
    [end] is the length. *)
Definition clamp (len i : Z) : Z :=
  if i <? 0 then Z.max (len + i) 0 else Z.min i len.

Definition slice {A : Type} (a : list A) (start : Z) (end_ : option Z)
  : list A :=
  let len := Z.of_nat (List.length a) in
  let from := clamp len start in
  let to := match end_ with Some e => clamp len e | None => len end in
  firstn (Z.to_nat (to - from)) (skipn (Z.to_nat from) a).

(** [s.split(sep)] for a separator of one code unit. *)
Fixpoint split (sep : ascii) (s : str) : list str :=
  match s with
  | [] => [[]]
  | c :: s' =>
      if Ascii.eqb c sep then [] :: split sep s'
      else
        match split sep s' with
        | part :: parts => (c :: part) :: parts
        | [] => [[c]]
        end
  end.

(** [parts.join(sep)]. *)
Fixpoint join (sep : str) (parts : list str) : str :=
  match parts with
  | [] => []
  | [part] => part
  | part :: parts' => part ++ sep ++ join sep parts'
  end.

(** [parts.lastIndexOf(x)]: -1 when no element is [x]. *)
Fixpoint findLast (x : str) (parts : list str) : option nat :=
  match parts with
  | [] => None
  | part :: parts' =>
      match findLast x parts' with
      | Some i => Some (S i)
      | None => if eqb part x then Some 0%nat else None
      end
  end.

Definition lastIndexOf (x : str) (parts : list str) : Z :=
  match findLast x parts with
  | Some i => Z.of_nat i
  | None => -1
  end.
End Js.

(** ** The stack-trace prettifier *)

Definition newline : ascii := "010"%char.
Definition openParen : ascii := "("%char.
Definition closeParen : ascii := ")"%char.
Definition slash : ascii := "/"%char.

(** The longest run of code units other than [)] at the head of a string,
    and what follows it. *)
Fixpoint untilClose (s : str) : str * str :=
  match s with
  | [] => ([], [])
  | c :: s' =>
      if Ascii.eqb c closeParen then ([], s)
      else let r := untilClose s' in (c :: fst r, snd r)
  end.

(** [stacktraceLine.match(/\(([^)]+)\)/)] followed by [matchedPaths[1]]:
    the match starts at the first [(] that is followed by one or more code
    units other than [)] and then by [)]; its group is that run.  Without
    a match the function returns [undefined]. *)
Fixpoint getDirectoryPath (stacktraceLine : str) : option str :=
  match stacktraceLine with
  | [] => None
  | c :: rest =>
      if Ascii.eqb c openParen then
        match untilClose rest with
        | ((_ :: _) as group, _ :: _) => Some group
        | _ => getDirectoryPath rest
        end
      else getDirectoryPath rest
  end.

(** The text before the parentheses, with the opening one. *)
Definition prefixOf (stacktraceLine : str) : str :=
  Js.slice stacktraceLine 0
    (Some (Js.indexOf [openParen] stacktraceLine + 1)).

Definition trimSnarkyJSPath (stacktraceLine : str) : str :=
  match getDirectoryPath stacktraceLine with
  | None | Some [] => stacktraceLine
  | Some fullPath =>
      let snarkyJSIndex := Js.indexOf (lit "snarkyjs") fullPath in
      if snarkyJSIndex =? -1 then stacktraceLine
      else
        let prefix := prefixOf stacktraceLine in
        let updatedPath := Js.slice fullPath snarkyJSIndex None in
        prefix ++ updatedPath ++ [closeParen]
  end.

Definition trimOpamPath (stacktraceLine : str) : str :=
  match getDirectoryPath stacktraceLine with
  | None | Some [] => stacktraceLine
  | Some fullPath =>
      let opamIndex := Js.indexOf (lit "opam") fullPath in
      if opamIndex =? -1 then stacktraceLine
      else
        let updatedPathArray :=
          Js.split slash (Js.slice fullPath opamIndex None) in
        let libIndex := Js.lastIndexOf (lit "lib") updatedPathArray in
        if libIndex =? -1 then stacktraceLine
        else
          let prefix := prefixOf stacktraceLine in
          let trimmedPath := Js.slice updatedPathArray (libIndex + 1) None in
          let trimmedPath := lit "ocaml" :: trimmedPath in
          prefix ++ Js.join [slash] trimmedPath ++ [closeParen]
  end.

Definition trimWorkspacePath (stacktraceLine : str) : str :=
  match getDirectoryPath stacktraceLine with
  | None | Some [] => stacktraceLine
  | Some fullPath =>
      let workspaceIndex := Js.indexOf (lit "workspace_root") fullPath in
      if workspaceIndex =? -1 then stacktraceLine
      else
        let updatedPathArray :=
          Js.split slash (Js.slice fullPath workspaceIndex None) in
        let prefix := prefixOf stacktraceLine in
        let trimmedPath := Js.slice updatedPathArray workspaceIndex None in
        prefix ++ Js.join [slash] trimmedPath ++ [closeParen]
  end.

Definition trimPaths (stacktracePath : str) : str :=
  let includesSnarkyJS := Js.includes (lit "snarkyjs") stacktracePath in
  if includesSnarkyJS then trimSnarkyJSPath stacktracePath
  else
    let includesOpam := Js.includes (lit "opam") stacktracePath in
    if includesOpam then trimOpamPath stacktracePath
    else
      let includesWorkspace :=
        Js.includes (lit "workspace_root") stacktracePath in
      if includesWorkspace then trimWorkspacePath stacktracePath
      else stacktracePath.

Definition lineRemovalKeywords : list str :=
  [lit "snarky_js_node.bc.cjs"; lit "/builtin/";
   lit "CatchAndPrettifyStacktrace"].

(** A value of type [unknown] that a method may throw: an instance of
    [Error] with its message and its stack, or anything else. *)
Record ErrorObject := { message : str; stack : option str }.

Inductive Unknown :=
| AnError (e : ErrorObject)
| NotAnError (v : Z).

(** The loop of [prettifyStacktrace]: a line that includes a keyword is
    skipped, any other line is trimmed and pushed. *)
Fixpoint keptLines (stacktraceLines : list str) : list str :=
  match stacktraceLines with
  | [] => []
  | line :: rest =>
      let shouldRemoveLine :=
        existsb (fun lineToRemove => Js.includes lineToRemove line)
          lineRemovalKeywords in
      if shouldRemoveLine then keptLines rest
      else trimPaths line :: keptLines rest
  end.

(** [!error.stack] holds for a missing stack and for the empty string. *)
Definition prettifyStacktrace (error : Unknown) : option str :=
  match error with
  | NotAnError _ => None
  | AnError e =>
      match stack e with
      | None | Some [] => None
      | Some stacktrace =>
          let stacktraceLines := Js.split newline stacktrace in
          Some (Js.join [newline] (keptLines stacktraceLines))
      end
  end.

(** The body shared by the two handlers of the decorator: the stack is
    replaced when the pretty one is a non-empty string, and the error is
    thrown again. *)
Definition rethrown (error : Unknown) : Unknown :=
  match prettifyStacktrace error, error with
  | Some ((_ :: _) as prettyStacktrace), AnError e =>
      AnError {| message := message e; stack := Some prettyStacktrace |}
  | _, _ => error
  end.

(** What a call of a method does, and what it returns: a promise, given by
    the way it settles, or any other value. *)
Inductive Completion (A : Type) :=
| Normal (a : A)
| Throw (error : Unknown).
Arguments Normal {A} a.
Arguments Throw {A} error.

Inductive Settlement (A : Type) :=
| Fulfilled (a : A)
| Rejected (error : Unknown)
| Pending.
Arguments Fulfilled {A} a.
Arguments Rejected {A} error.
Arguments Pending {A}.

Inductive Value (A : Type) :=
| APromise (p : Settlement A)
| Plain (a : A).
Arguments APromise {A} p.
Arguments Plain {A} a.

Definition handleResult {A : Type} (result : Value A) : Value A :=
  match result with
  | APromise (Rejected error) => APromise (Rejected (rethrown error))
  | APromise p => APromise p
  | Plain a => Plain a
  end.

(** The function that the decorator puts in place of [originalMethod]. *)
Definition CatchAndPrettifyStacktrace {Args A : Type}
    (originalMethod : Args -> Completion (Value A)) (args : Args)
  : Completion (Value A) :=
  match originalMethod args with
  | Normal result => Normal (handleResult result)
  | Throw error => Throw (rethrown error)
  end.


(** A match of the pattern of [getDirectoryPath] in [line]: after [pre]
    come [(], the non-empty [group] without [)], and [)]. *)
Definition matchAt (pre group post line : str) : Prop :=
  line = pre ++ openParen :: group ++ closeParen :: post
  /\ group <> [] /\ ~ In closeParen group.

(** ** More about the contract: what a sequence of actions folds to *)

(** The last action of a sequence whose public key is not the empty one. *)
Definition lastReal (pendingActions : list Member.t) : option Member.t :=
  find
    (fun a => negb (PublicKey.equals (Member.publicKey a) PublicKey.empty))
    (rev pendingActions).

(** A call of a method as the source has it, where the reducer is given
    the empty list. *)
Inductive MethodCall :=
| AddEntry (member : Member.t)
| IsMember (member : Member.t)
| Publish.

Definition asWritten (call : MethodCall) : Invocation :=
  match call with
  | AddEntry member => CallAddEntry [] member
  | IsMember member => CallIsMember member
  | Publish => CallPublish []
  end.

(** The members handed to the [addEntry] calls of a sequence, in order. *)
Definition admitted (calls : list (ModuleState * MethodCall))
  : list Member.t :=
  flat_map
    (fun call : ModuleState * MethodCall =>
       match snd call with
       | AddEntry member => [member]
       | _ => []
       end)
    calls.

Definition isAddEntry (call : ModuleState * Invocation) : bool :=
  match snd call with
  | CallAddEntry _ _ => true
  | _ => false
  end.

(** ** Sample data for the library patches and the prettifier *)

(** The bit size and the modulus of the Pallas base field, and the
    little-endian reading of a byte array. *)
Definition sampleSizeInBits : Z := 255.
Definition sampleModulus : Z :=
  28948022309329048855892746252171976963363056481941560715954676764349967630337.
Definition sampleFieldOf (x : Z) : Field := x mod sampleModulus.
Definition sampleBytesToBigInt (bytes : list Z) : Z :=
  fold_right (fun byte x => byte + 256 * x) 0 bytes.

(** 32 bytes that read as 7 + 2^254, and 33 bytes that read as 7 + 2^256. *)
Definition bytesHigh : list Z := 7 :: repeat 0 30 ++ [64].
Definition bytesBeyond : list Z := 7 :: repeat 0 31 ++ [1].

Definition lineOpam : str :=
  lit "    at caml_call (/home/u/.opam/4.14/lib/ocaml/list.ml:3:4)".
Definition lineShadowed : str :=
  lit "    at snarkyjsHelper (/home/u/.opam/4.14/lib/ocaml/list.ml:3:4)".
Definition stackPlain : str :=
  lit "Error: boom" ++ [newline] ++ lit "    at main (/srv/app.js:1:2)".
Definition stackMixed : str :=
  lit "Error: boom" ++ [newline]
    ++ lit "    at f (/x/snarkyjs/dist/lib/a.js:1:2)" ++ [newline]
    ++ lit "    at g (/x/builtin/b.js:3:4)".
Definition stackRemoved : str :=
  lit "    at CatchAndPrettifyStacktrace (x.js:1:1)" ++ [newline]
    ++ lit "    at f (/builtin/a.js:2:2)".

(** * Properties *)

(** ** Equality tests of the value types *)

Lemma PublicKey_equals_eq (a b : PublicKey.t) :
  PublicKey.equals a b = true <-> a = b.
Proof.
  destruct a as [xa oa], b as [xb ob]; unfold PublicKey.equals; simpl.
  rewrite andb_true_iff, Z.eqb_eq, eqb_true_iff.
  split; [intros [-> ->]; reflexivity | intros E; inversion E; auto].
Qed.

Lemma MerkleWitness_equals_eq (a b : MerkleWitness.t) :
  MerkleWitness.equals a b = true <-> a = b.
Proof.
  revert b; induction a as [|[l1 s1] a IH]; intros [|[l2 s2] b]; simpl;
    try (split; [discriminate | discriminate]); [tauto |].
  rewrite !andb_true_iff, eqb_true_iff, Z.eqb_eq, IH.
  split; [intros [[-> ->] ->]; reflexivity | intros E; inversion E; auto].
Qed.

Lemma Member_equals_eq (a b : Member.t) : Member.equals a b = true <-> a = b.
Proof.
  destruct a as [ka ba wa], b as [kb bb wb]; unfold Member.equals; simpl.
  unfold UInt64.equals.
  rewrite !andb_true_iff, PublicKey_equals_eq, Z.eqb_eq,
    MerkleWitness_equals_eq.
  split; [intros [[-> ->] ->]; reflexivity | intros E; inversion E; auto].
Qed.

(** ** The reducer's two components *)

Section ReducerFacts.
Context `{Poseidon.Hash} {T : Type}.

Lemma reduce_state (pending : list Member.t) (step : T -> Member.t -> T)
    (init : Reducer.FoldState T) :
  Reducer.state (Reducer.reduce pending step init)
  = fold_left step pending (Reducer.state init).
Proof.
  unfold Reducer.reduce; revert init.
  induction pending as [|a pending IH]; intros init; simpl;
    [reflexivity | now rewrite IH].
Qed.

Lemma reduce_actionsHash (pending : list Member.t) (step : T -> Member.t -> T)
    (init : Reducer.FoldState T) :
  Reducer.actionsHash (Reducer.reduce pending step init)
  = fold_left Reducer.pushAction pending (Reducer.actionsHash init).
Proof.
  unfold Reducer.reduce; revert init.
  induction pending as [|a pending IH]; intros init; simpl;
    [reflexivity | now rewrite IH].
Qed.

End ReducerFacts.

Lemma existsStep_fold (member : Member.t) (pending : list Member.t) (b : bool) :
  fold_left (existsStep member) pending b
  = b || existsb (fun a => Member.equals a member) pending.
Proof.
  revert b; induction pending as [|a pending IH]; intros b; simpl.
  - now rewrite orb_false_r.
  - rewrite IH; unfold existsStep.
    destruct (Member.equals a member), b; reflexivity.
Qed.

(** ** What each method does to the storage *)

Section MethodFacts.
Context `{Poseidon.Hash}.

Lemma assertEquals_current (v : StateVar) (g : ModuleState) (c : Contract) :
  State.assertEquals v (read v c) g c = Ok (tt, c).
Proof. unfold State.assertEquals; now rewrite Z.eqb_refl. Qed.

Lemma addEntryOver_runs (pending : list Member.t) (member : Member.t)
    (g : ModuleState) (c : Contract) :
  addEntryOver pending member g c
  = Ok (scanOf pending member c,
        appended (Circuit.if_ (scanOf pending member c) Member.empty member) c).
Proof.
  unfold addEntryOver, rangeTest, bind, moduleVar, State.get,
    State.assertEquals, Reducer.dispatch, ret, scanOf; simpl.
  now rewrite Z.eqb_refl.
Qed.

Lemma isMember_runs (member : Member.t) (g : ModuleState) (c : Contract) :
  isMember member g c
  = Ok (MerkleWitness.calculateRoot (Member.witness member)
          (Poseidon.hash (Member.toFields member))
        =? committedMembers c, c).
Proof.
  unfold isMember, bind, State.get, State.assertEquals, ret; simpl.
  now rewrite Z.eqb_refl.
Qed.

Lemma publishOver_runs (pending : list Member.t) (g : ModuleState)
    (c : Contract) :
  publishOver pending g c
  = Ok (tt,
        {| committedMembers :=
             fold_left merkleStep pending (committedMembers c);
           accumulatedMembers :=
             fold_left Reducer.pushAction pending (accumulatedMembers c);
           actions := actions c |}).
Proof.
  unfold publishOver, bind, State.get, State.assertEquals, State.set; simpl.
  rewrite !Z.eqb_refl; simpl.
  now rewrite reduce_state, reduce_actionsHash.
Qed.

(** After any sequence of calls the committed root and the accumulated
    marker are the folds, from their first values, of one and the same
    sequence: the actions the [publish] calls were given. *)
Lemma history_checkpoint (calls : list (ModuleState * Invocation))
    (c : Contract) :
  committedMembers (history calls c)
  = fold_left merkleStep (published calls) (committedMembers c)
  /\ accumulatedMembers (history calls c)
     = fold_left Reducer.pushAction (published calls) (accumulatedMembers c).
Proof.
  revert c. induction calls as [|[g i] calls IH]; intros c.
  - split; reflexivity.
  - unfold history in *. simpl fold_left at 1 3. unfold published; simpl.
    fold (published calls). rewrite !fold_left_app.
    destruct (IH (invoke g i c)) as [IHr IHm]. rewrite IHr, IHm.
    destruct i as [pending member | member | pending];
      unfold invoke, storageAfter;
      rewrite ?addEntryOver_runs, ?isMember_runs, ?publishOver_runs;
      split; reflexivity.
Qed.

End MethodFacts.

(** ** The claims *)

(** C1 (the code departs from it).  The claim: a candidate whose balance is
    outside the configured range makes [addEntry] throw and nothing is
    appended.  Here the bounds are 10 and 20 and the member's balance is 5,
    so the range test is false; [addEntry] returns normally and the member
    is appended to the log. *)
Theorem addEntry_admits_out_of_range :
  rangeTest memberA5 module_10_20 fresh = Ok (false, fresh)
  /\ addEntry (H := sampleHash) memberA5 module_10_20 fresh
     = Ok (false, appended memberA5 fresh).
Proof. split; reflexivity. Qed.

(** C2 (the code departs from it).  The claim: admitting the same eligible
    candidate twice before a commit returns false, then true.  Here the
    member is in range and is admitted twice on a storage with an empty
    log; both calls return false and the log holds the member twice. *)
Theorem addEntry_twice_returns_false_twice :
  rangeTest memberA5 module_0_10 fresh = Ok (true, fresh)
  /\ (first <- addEntry (H := sampleHash) memberA5 ;;
      second <- addEntry (H := sampleHash) memberA5 ;;
      ret (first, second)) module_0_10 fresh
     = Ok ((false, false), appended memberA5 (appended memberA5 fresh)).
Proof. split; reflexivity. Qed.

(** C3 (the code departs from it).  The claim: the action appended is the
    empty member when the candidate already exists, and the returned value
    says so.  Here the log already holds the member; [addEntry] returns
    false and appends the member once more, not the empty member.  The
    same happens for every member that is in the log. *)
Theorem addEntry_dispatches_member_already_logged :
  let logged := appended memberA5 fresh in
  In memberA5 (actions logged)
  /\ addEntry (H := sampleHash) memberA5 module_0_10 logged
     = Ok (false, appended memberA5 logged)
  /\ appended memberA5 logged
     <> appended (Circuit.if_ true Member.empty memberA5) logged
  /\ (forall (H : Poseidon.Hash) member g c,
        In member (actions c) ->
        addEntry member g c = Ok (false, appended member c)).
Proof.
  cbv zeta. split; [now left |]. split; [reflexivity |].
  split; [discriminate |].
  intros H member g c _. unfold addEntry. now rewrite addEntryOver_runs.
Qed.

Section Claims.
Context `{Poseidon.Hash}.

(** C4.  Folding the step of the existence scan from left to right over a
    sequence of actions, starting from false, gives true exactly when the
    candidate occurs in the sequence; the step is
    [found OR (entry == candidate)], and the reducer's result for this step
    is that fold. *)
Theorem existence_scan_finds_candidate (pending : list Member.t)
    (candidate : Member.t) (marker : Field) :
  (fold_left (existsStep candidate) pending false = true
   <-> In candidate pending)
  /\ (forall found entry,
        existsStep candidate found entry
        = found || Member.equals entry candidate)
  /\ Reducer.state
       (Reducer.reduce pending (existsStep candidate)
          (Reducer.mk false marker))
     = fold_left (existsStep candidate) pending false.
Proof.
  split; [| split].
  - rewrite existsStep_fold, orb_false_l, existsb_exists.
    split.
    + intros [a [Hin Heq]]. apply Member_equals_eq in Heq. now subst a.
    + intros Hin. exists candidate. split; [exact Hin |].
      now apply Member_equals_eq.
  - intros found entry. unfold existsStep. apply orb_comm.
  - apply reduce_state.
Qed.

(** C5.  The step of the Merkle fold returns the root recomputed from the
    entry's witness over the hash of the entry when the entry's public key
    is not the empty key, and the accumulator unchanged when it is; in both
    cases it makes the same two calls, [Poseidon.hash] on the entry's
    fields and [calculateRoot] on the result. *)
Theorem merkle_step_selects (root : Field) (entry : Member.t) :
  let leaf := Poseidon.hash (Member.toFields entry) in
  let recomputed := MerkleWitness.calculateRoot (Member.witness entry) leaf in
  (Member.publicKey entry <> Member.publicKey Member.empty ->
   merkleStep root entry = recomputed)
  /\ (Member.publicKey entry = Member.publicKey Member.empty ->
      merkleStep root entry = root)
  /\ snd (merkleStepT root entry)
     = [HashCall (Member.toFields entry);
        CalculateRootCall (Member.witness entry) leaf].
Proof.
  cbv zeta; unfold merkleStep, merkleStepT, tbind, tret, hashT,
    calculateRootT; simpl.
  destruct (PublicKey.equals (Member.publicKey entry) PublicKey.empty) eqn:E;
    unfold Circuit.if_; simpl.
  - apply PublicKey_equals_eq in E.
    split; [intros Hne; now elim Hne | split; reflexivity].
  - split; [reflexivity | split; [| reflexivity]].
    intros Heq. apply PublicKey_equals_eq in Heq. congruence.
Qed.

(** C6.  [isMember] returns normally, leaves the storage as it was, and
    returns true exactly when the root recomputed from the member's witness
    over the hash of the member equals the committed root.  Its answer is
    the same on any storage with that committed root, whatever the log and
    the accumulated marker; in particular an admission made just before it
    does not change the answer. *)
Theorem isMember_reads_committed_root (member : Member.t) (g : ModuleState)
    (c : Contract) :
  let recomputed :=
    MerkleWitness.calculateRoot (Member.witness member)
      (Poseidon.hash (Member.toFields member)) in
  exists b : bool,
    isMember member g c = Ok (b, c)
    /\ (b = true <-> recomputed = committedMembers c)
    /\ (forall g' c',
          committedMembers c' = committedMembers c ->
          isMember member g' c' = Ok (b, c'))
    /\ (forall pending candidate,
          exists c',
            (addEntryOver pending candidate ;; isMember member) g c
            = Ok (b, c')).
Proof.
  cbv zeta. eexists. split; [apply isMember_runs |]. split; [| split].
  - apply Z.eqb_eq.
  - intros g' c' Hroot. rewrite isMember_runs, Hroot. reflexivity.
  - intros pending candidate. eexists. unfold bind at 1.
    rewrite addEntryOver_runs, isMember_runs. reflexivity.
Qed.

(** C7.  [publish] run over no pending actions returns normally and leaves
    the committed root and the accumulated marker, indeed the whole
    storage, as they were; so does [publish] run twice in a row. *)
Theorem publish_without_pending_is_stable (g : ModuleState) (c : Contract) :
  publishOver [] g c = Ok (tt, c)
  /\ publish g c = Ok (tt, c)
  /\ (publish ;; publish) g c = Ok (tt, c).
Proof.
  assert (E : forall g', publishOver [] g' c = Ok (tt, c)).
  { intros g'. rewrite publishOver_runs. now destruct c. }
  split; [apply E |]. split; [apply E |].
  unfold bind, publish. now rewrite !E.
Qed.

(** C8.  [addEntry] leaves the committed root and the accumulated marker as
    they were, [isMember] leaves the whole storage as it was, and [publish]
    returns with both values replaced by the two components of one run of
    the reducer from the old pair over the same pending actions, the log
    untouched.  Hence after any sequence of calls the root and the marker
    are the folds of the same sequence of actions, those handed to the
    [publish] calls: the root is never ahead of the marker. *)
Theorem committed_root_written_by_publish_only (pending : list Member.t)
    (member : Member.t) (g : ModuleState) (c : Contract) :
  (exists r c',
      addEntryOver pending member g c = Ok (r, c')
      /\ committedMembers c' = committedMembers c
      /\ accumulatedMembers c' = accumulatedMembers c)
  /\ (exists r, isMember member g c = Ok (r, c))
  /\ (exists c',
        publishOver pending g c = Ok (tt, c')
        /\ let r :=
             Reducer.reduce pending merkleStep
               (Reducer.mk (committedMembers c) (accumulatedMembers c)) in
           committedMembers c' = Reducer.state r
           /\ accumulatedMembers c' = Reducer.actionsHash r
           /\ actions c' = actions c)
  /\ (forall calls : list (ModuleState * Invocation),
        committedMembers (history calls c)
        = fold_left merkleStep (published calls) (committedMembers c)
        /\ accumulatedMembers (history calls c)
           = fold_left Reducer.pushAction (published calls)
               (accumulatedMembers c)).
Proof.
  split; [| split; [| split]].
  - do 2 eexists. split; [apply addEntryOver_runs |]. split; reflexivity.
  - eexists. apply isMember_runs.
  - eexists. split; [apply publishOver_runs |]. cbv zeta; simpl.
    now rewrite reduce_state, reduce_actionsHash.
  - intros calls. apply history_checkpoint.
Qed.


(** C10, as amended.  Two invocations of [addEntry] on the same storage,
    with any two members and under any two module states, both return
    normally and both return false, and each appends its own member.  With
    the same member the two outcomes are equal whatever the bounds; the
    appended actions are equal only for equal members, so members that
    differ in the balance append different actions. *)
Theorem addEntry_outcome_balance_and_bounds (g1 g2 : ModuleState)
    (c : Contract) (m1 m2 : Member.t) :
  addEntry m1 g1 c = Ok (false, appended m1 c)
  /\ addEntry m2 g2 c = Ok (false, appended m2 c)
  /\ (m1 = m2 -> addEntry m1 g1 c = addEntry m2 g2 c)
  /\ (actions (appended m1 c) = actions (appended m2 c) <-> m1 = m2)
  /\ (Member.balance m1 <> Member.balance m2 ->
      actions (appended m1 c) <> actions (appended m2 c)).
Proof.
  assert (E : forall m g, addEntry m g c = Ok (false, appended m c))
    by (intros m g; unfold addEntry; now rewrite addEntryOver_runs).
  assert (I : actions (appended m1 c) = actions (appended m2 c) -> m1 = m2).
  { simpl. intros Happ. apply app_inv_head in Happ. now inversion Happ. }
  split; [apply E |]. split; [apply E |]. split; [| split].
  - intros ->. now rewrite !E.
  - split; [exact I | now intros ->].
  - intros Hne Happ. apply Hne. now rewrite (I Happ).
Qed.

End Claims.

(** The range test itself follows the module-level variable: a member of
    balance 5 passes it after a contract is built with the bounds 0 and 10,
    and fails it once a second contract is built with the bounds 10 and
    20. *)
Lemma rangeTest_changes_with_construction :
  rangeTest memberA5 (fst (Membership paramsA module_10_20)) fresh
  <> rangeTest memberA5
       (fst (Membership paramsB (fst (Membership paramsA module_10_20))))
       fresh.
Proof. discriminate. Qed.

(** C10, as stated, fails.  Two members that differ in the balance only,
    both within the bounds, are admitted on the same storage; both calls
    return false and the actions they append are different. *)
Lemma addEntry_dispatch_carries_balance :
  exists c5 c6 : Contract,
    addEntry (H := sampleHash) memberA5 module_0_10 fresh = Ok (false, c5)
    /\ addEntry (H := sampleHash) memberA6 module_0_10 fresh = Ok (false, c6)
    /\ Member.publicKey memberA5 = Member.publicKey memberA6
    /\ Member.witness memberA5 = Member.witness memberA6
    /\ actions c5 <> actions c6.
Proof.
  exists (appended memberA5 fresh), (appended memberA6 fresh).
  repeat (split; [reflexivity |]).
  intros E; inversion E.
Qed.

(** * Further properties

    What the contract's step functions fold to, and the library patches
    and the stack-trace prettifier. *)

(** ** The contract *)

Section More.
Context `{Poseidon.Hash}.

Lemma merkleStep_value (root : Field) (a : Member.t) :
  merkleStep root a
  = if negb (PublicKey.equals (Member.publicKey a) PublicKey.empty)
    then MerkleWitness.calculateRoot (Member.witness a)
           (Poseidon.hash (Member.toFields a))
    else root.
Proof.
  unfold merkleStep, merkleStepT, tbind, tret, hashT, calculateRootT; simpl.
  now destruct (PublicKey.equals (Member.publicKey a) PublicKey.empty).
Qed.

Lemma merkle_fold (pending : list Member.t) (root : Field) :
  fold_left merkleStep pending root
  = match lastReal pending with
    | Some e =>
        MerkleWitness.calculateRoot (Member.witness e)
          (Poseidon.hash (Member.toFields e))
    | None => root
    end.
Proof.
  induction pending as [|a pending IH] using rev_ind; [reflexivity |].
  rewrite fold_left_app. simpl fold_left. rewrite merkleStep_value.
  unfold lastReal. rewrite rev_app_distr. simpl.
  destruct (negb (PublicKey.equals (Member.publicKey a) PublicKey.empty));
    [reflexivity | exact IH].
Qed.

(** X1.  The Merkle step of [publish], folded by the reducer over any
    sequence of actions, gives the root recomputed from the witness of the
    last action whose public key is not the empty one, and the starting root
    when there is none: the earlier actions and the starting root do not
    enter the result. *)
Theorem merkle_fold_is_last_real_entry (pending : list Member.t)
    (root marker : Field) :
  Reducer.state (Reducer.reduce pending merkleStep (Reducer.mk root marker))
  = match lastReal pending with
    | Some e =>
        MerkleWitness.calculateRoot (Member.witness e)
          (Poseidon.hash (Member.toFields e))
    | None => root
    end.
Proof. rewrite reduce_state. apply merkle_fold. Qed.

Lemma publish_runs (g : ModuleState) (c : Contract) :
  publish g c = Ok (tt, c).
Proof. unfold publish. rewrite publishOver_runs. now destruct c. Qed.

(** X2.  With the methods as the source has them, admitting a member and
    then calling [publish] leaves the answer of [isMember] for every entry
    as it was before the two calls. *)
Theorem isMember_unchanged_by_admission_and_publish (member e : Member.t)
    (g : ModuleState) (c : Contract) :
  exists b,
    isMember e g c = Ok (b, c)
    /\ (addEntry member ;; publish ;; isMember e) g c
       = Ok (b, appended member c).
Proof.
  eexists. split; [apply isMember_runs |]. unfold bind, addEntry.
  rewrite addEntryOver_runs, publish_runs, isMember_runs. reflexivity.
Qed.

(** X3.  After any sequence of calls the log is the old log followed by
    one action for each call of [addEntry]: [isMember] and [publish] add
    nothing, and nothing is ever removed. *)
Theorem log_is_append_only (calls : list (ModuleState * Invocation))
    (c : Contract) :
  exists added,
    actions (history calls c) = actions c ++ added
    /\ List.length added = List.length (filter isAddEntry calls).
Proof.
  revert c. induction calls as [|[g i] calls IH]; intros c.
  - exists []. split; [now rewrite app_nil_r | reflexivity].
  - unfold history in *. simpl fold_left.
    destruct (IH (invoke g i c)) as (added & Hlog & Hlen). rewrite Hlog.
    destruct i as [pending member | member | pending];
      unfold invoke, storageAfter;
      rewrite ?addEntryOver_runs, ?isMember_runs, ?publishOver_runs;
      simpl.
    + eexists. rewrite <- app_assoc. split; [reflexivity |].
      simpl. now rewrite Hlen.
    + now exists added.
    + now exists added.
Qed.

(** X4.  With the methods as the source has them, where the reducer is
    given the empty list, any sequence of calls leaves the committed root
    and the accumulated marker as they were, and the log is the old log
    followed by the members handed to the [addEntry] calls, in order. *)
Theorem calls_as_written (calls : list (ModuleState * MethodCall))
    (c : Contract) :
  history (map (fun call => (fst call, asWritten (snd call))) calls) c
  = {| committedMembers := committedMembers c;
       accumulatedMembers := accumulatedMembers c;
       actions := actions c ++ admitted calls |}.
Proof.
  revert c. induction calls as [|[g call] calls IH]; intros c.
  - simpl. rewrite app_nil_r. now destruct c.
  - unfold history in *. simpl map. simpl fold_left. rewrite IH.
    destruct call as [member | member |];
      unfold invoke, asWritten, storageAfter; simpl snd;
      rewrite ?addEntryOver_runs, ?isMember_runs, ?publishOver_runs;
      simpl; rewrite <- ?app_assoc; reflexivity.
Qed.

(** X5.  The existence scan over two sequences one after the other is the
    disjunction of the scans over each, and the scan gives the same answer
    on any reordering of a sequence. *)
Theorem existence_scan_order (candidate : Member.t)
    (first second : list Member.t) :
  fold_left (existsStep candidate) (first ++ second) false
  = fold_left (existsStep candidate) first false
    || fold_left (existsStep candidate) second false
  /\ (forall pending pending',
        Permutation pending pending' ->
        fold_left (existsStep candidate) pending false
        = fold_left (existsStep candidate) pending' false).
Proof.
  split.
  - rewrite !existsStep_fold, !orb_false_l. apply existsb_app.
  - intros pending pending' Hperm. rewrite !existsStep_fold, !orb_false_l.
    induction Hperm as [| a l l' _ IH | a b l | l l' l'' _ IH1 _ IH2]; simpl.
    + reflexivity.
    + now rewrite IH.
    + now rewrite !orb_assoc, (orb_comm (Member.equals b candidate)).
    + now rewrite IH1.
Qed.

End More.

(** ** Binary encoding of [Bool] and compressed scalars *)

Lemma at_middle (pre post : list Z) (n : Z) :
  BoolBinable.at_ (pre ++ n :: post) (Z.of_nat (List.length pre)) = Some n.
Proof.
  unfold BoolBinable.at_.
  destruct (Z.ltb_spec (Z.of_nat (List.length pre)) 0) as [Hneg | _]; [lia |].
  rewrite Nat2Z.id, nth_error_app2, Nat.sub_diag; [reflexivity | lia].
Qed.

(** X6.  Reading at the offset where the bytes of a [Bool] were written
    gives the [Bool] back, and the new offset is the old one plus
    [sizeInBytes], whatever precedes and follows in the array. *)
Theorem readBytes_toBytes (pre post : list Z) (b : bool) :
  BoolBinable.readBytes (pre ++ BoolBinable.toBytes b ++ post)
    (Z.of_nat (List.length pre))
  = (b, Z.of_nat (List.length pre) + BoolBinable.sizeInBytes).
Proof.
  unfold BoolBinable.readBytes, BoolBinable.toBytes; simpl.
  rewrite at_middle. now destruct b.
Qed.


(** X8.  A byte reads as true exactly when it is not 0; so writing back
    what was read gives the same byte only for 0 and 1. *)
Theorem toBytes_readBytes (pre post : list Z) (n : Z) :
  let offset := Z.of_nat (List.length pre) in
  (fst (BoolBinable.readBytes (pre ++ n :: post) offset) = true <-> n <> 0)
  /\ (BoolBinable.toBytes
        (fst (BoolBinable.readBytes (pre ++ n :: post) offset))
      = [n] <-> n = 0 \/ n = 1).
Proof.
  cbv zeta. unfold BoolBinable.readBytes, BoolBinable.toBytes; simpl.
  rewrite at_middle. destruct (Z.eqb_spec n 0) as [-> | Hn]; simpl.
  - split; [split; [discriminate | intros E; now elim E] |].
    split; [now left | reflexivity].
  - split; [split; [now intros _ | reflexivity] |].
    split; [intros E; inversion E; now right |].
    intros [-> | ->]; [now elim Hn | reflexivity].
Qed.

Section ScalarFacts.
Variable sizeInBits : Z.
Variable FieldOf : Z -> Field.
Variable bytesToBigInt : list Z -> Z.
Hypothesis size_positive : 1 <= sizeInBits.
Hypothesis small_is_itself :
  forall v, 0 <= v < 2 ^ (sizeInBits - 1) -> FieldOf v = v.

Lemma low_bits (x : Z) :
  FieldOf (Z.land x (Z.shiftl 1 (sizeInBits - 1) - 1))
  = x mod 2 ^ (sizeInBits - 1).
Proof.
  replace (Z.shiftl 1 (sizeInBits - 1) - 1) with (Z.ones (sizeInBits - 1))
    by (rewrite Z.ones_equiv, Z.shiftl_1_l; lia).
  rewrite Z.land_ones by lia.
  apply small_is_itself. apply Z.mod_pos_bound.
  apply Z.pow_pos_nonneg; lia.
Qed.

Lemma high_bit (x : Z) :
  (Z.shiftr x (sizeInBits - 1) =? 1) = true
  <-> 2 ^ (sizeInBits - 1) <= x < 2 ^ sizeInBits.
Proof.
  rewrite Z.eqb_eq, Z.shiftr_div_pow2 by lia.
  replace (2 ^ sizeInBits) with (2 * 2 ^ (sizeInBits - 1))
    by (rewrite <- Z.pow_succ_r by lia; f_equal; lia).
  assert (Hpos : 0 < 2 ^ (sizeInBits - 1)) by (apply Z.pow_pos_nonneg; lia).
  split.
  - intros Hq. pose proof (Z.div_mod x (2 ^ (sizeInBits - 1))).
    pose proof (Z.mod_pos_bound x (2 ^ (sizeInBits - 1))). nia.
  - intros [Hlo Hhi]. symmetry.
    apply Z.div_unique with (r := x - 2 ^ (sizeInBits - 1)); lia.
Qed.

(** X10.  For a constant scalar [toFieldsCompressed] never fails on the
    value of the bytes: the field is the value modulo [2^(sizeInBits-1)]
    and the high bit is set exactly when the value lies between
    [2^(sizeInBits-1)] and [2^sizeInBits]; for a larger value the bits
    above are dropped and the high bit is false. *)
Theorem toFieldsCompressed_bits (bytes : list Z) :
  let x := bytesToBigInt bytes in
  let half := 2 ^ (sizeInBits - 1) in
  exists r,
    Scalar.toFieldsCompressed sizeInBits FieldOf bytesToBigInt
      (Scalar.mk true (Some bytes)) = Scalar.Returns r
    /\ Scalar.field r = x mod half
    /\ (Scalar.highBit r = true <-> half <= x < 2 ^ sizeInBits).
Proof.
  cbv zeta. eexists. split; [reflexivity |]. simpl.
  split; [apply low_bits | apply high_bit].
Qed.

(** X9.  For a constant scalar whose bytes read as a value below
    [2^sizeInBits], the field is below [2^(sizeInBits-1)] and the value is
    the field plus [2^(sizeInBits-1)] when the high bit is set, the field
    alone otherwise. *)
Theorem toFieldsCompressed_lossless (bytes : list Z) :
  let x := bytesToBigInt bytes in
  let half := 2 ^ (sizeInBits - 1) in
  0 <= x < 2 ^ sizeInBits ->
  exists r,
    Scalar.toFieldsCompressed sizeInBits FieldOf bytesToBigInt
      (Scalar.mk true (Some bytes)) = Scalar.Returns r
    /\ 0 <= Scalar.field r < half
    /\ x = Scalar.field r + (if Scalar.highBit r then half else 0).
Proof.
  cbv zeta. intros Hx. eexists. split; [reflexivity |]. simpl.
  rewrite low_bits.
  assert (Hpos : 0 < 2 ^ (sizeInBits - 1)) by (apply Z.pow_pos_nonneg; lia).
  split; [apply Z.mod_pos_bound; lia |].
  destruct (Z.shiftr (bytesToBigInt bytes) (sizeInBits - 1) =? 1) eqn:E.
  - apply high_bit in E.
    replace (2 ^ sizeInBits) with (2 * 2 ^ (sizeInBits - 1)) in E
      by (rewrite <- Z.pow_succ_r by lia; f_equal; lia).
    assert (Hm : bytesToBigInt bytes - 2 ^ (sizeInBits - 1)
                 = bytesToBigInt bytes mod 2 ^ (sizeInBits - 1))
      by (apply Z.mod_unique with (q := 1); lia).
    lia.
  - assert (Hlt : bytesToBigInt bytes < 2 ^ (sizeInBits - 1)).
    { destruct (Z.lt_ge_cases (bytesToBigInt bytes) (2 ^ (sizeInBits - 1)))
        as [Hl | Hg]; [exact Hl |].
      assert (Ht : (Z.shiftr (bytesToBigInt bytes) (sizeInBits - 1) =? 1)
                   = true)
        by (apply high_bit; lia).
      congruence. }
    rewrite Z.mod_small; lia.
Qed.

End ScalarFacts.

(** ** Strings *)

Lemma Js_eqb_eq (a b : str) : Js.eqb a b = true <-> a = b.
Proof.
  revert b; induction a as [|x a IH]; intros [|y b]; simpl;
    try (split; [discriminate | discriminate]); [tauto |].
  rewrite andb_true_iff, Ascii.eqb_eq, IH.
  split; [intros [-> ->]; reflexivity | intros E; inversion E; auto].
Qed.

Lemma startsWith_app (needle rest : str) :
  Js.startsWith needle (needle ++ rest) = true.
Proof.
  induction needle as [|x needle IH]; simpl; [reflexivity |].
  now rewrite Ascii.eqb_refl.
Qed.

Lemma startsWith_inv (needle s : str) :
  Js.startsWith needle s = true -> exists rest, s = needle ++ rest.
Proof.
  revert s; induction needle as [|x needle IH]; intros s Hs.
  - now exists s.
  - destruct s as [|y s]; [discriminate |]. simpl in Hs.
    apply andb_true_iff in Hs as [Hxy Hs]. apply Ascii.eqb_eq in Hxy.
    destruct (IH s Hs) as [rest ->]. subst y. now exists rest.
Qed.

Lemma find_head (needle rest : str) :
  Js.find needle (needle ++ rest) = Some 0%nat.
Proof.
  destruct needle as [|x needle]; [destruct rest; reflexivity |].
  cbn [Js.find app]. change (x :: needle ++ rest) with ((x :: needle) ++ rest).
  now rewrite startsWith_app.
Qed.

Lemma find_suffix (needle s : str) (i : nat) :
  Js.find needle s = Some i -> exists rest, skipn i s = needle ++ rest.
Proof.
  revert i; induction s as [|c s IH]; intros i.
  - simpl. destruct (Js.startsWith needle []) eqn:E; [| discriminate].
    intros [= <-]. now apply startsWith_inv.
  - cbn [Js.find]. destruct (Js.startsWith needle (c :: s)) eqn:E.
    + intros [= <-]. now apply startsWith_inv.
    + destruct (Js.find needle s) as [j|]; [| discriminate].
      intros [= <-]. simpl. now apply IH.
Qed.

(** The first occurrence of a single code unit. *)
Lemma find_unit_app (c : ascii) (pre rest : str) :
  ~ In c pre -> Js.find [c] (pre ++ c :: rest) = Some (List.length pre).
Proof.
  induction pre as [|d pre IH]; intros Hnot.
  - simpl. now rewrite Ascii.eqb_refl.
  - cbn [app Js.find Js.startsWith List.length].
    destruct (Ascii.eqb_spec c d) as [-> | Hcd]; [elim Hnot; now left |].
    simpl. rewrite IH; [reflexivity |]. intros Hin. apply Hnot. now right.
Qed.

Lemma find_unit_inv (c : ascii) (s : str) (i : nat) :
  Js.find [c] s = Some i ->
  exists pre rest, s = pre ++ c :: rest /\ ~ In c pre /\ List.length pre = i.
Proof.
  revert i; induction s as [|d s IH]; intros i; [discriminate |].
  cbn [Js.find Js.startsWith].
  destruct (Ascii.eqb_spec c d) as [-> | Hcd]; simpl.
  - intros [= <-]. exists [], s. repeat split. easy.
  - destruct (Js.find [c] s) as [j|] eqn:E; [| discriminate].
    intros [= <-]. destruct (IH j eq_refl) as (pre & rest & -> & Hnot & Hlen).
    exists (d :: pre), rest. repeat split; [| simpl; now rewrite Hlen].
    intros [Hd | Hin]; [now elim Hcd | now apply Hnot].
Qed.

Lemma find_unit_None (c : ascii) (s : str) :
  Js.find [c] s = None -> ~ In c s.
Proof.
  induction s as [|d s IH]; [easy |].
  cbn [Js.find Js.startsWith].
  destruct (Ascii.eqb_spec c d) as [-> | Hcd]; simpl; [discriminate |].
  destruct (Js.find [c] s); [discriminate |].
  intros _ [Hd | Hin]; [now elim Hcd | now apply IH].
Qed.

(** ** Slices with indices inside the sequence *)

Lemma slice_prefix {A : Type} (a : list A) (j : Z) :
  0 <= j -> Js.slice a 0 (Some j) = firstn (Z.to_nat j) a.
Proof.
  intros Hj. unfold Js.slice, Js.clamp.
  destruct (Z.ltb_spec j 0) as [Hneg | _]; [lia |].
  change (0 <? 0) with false. cbv iota.
  rewrite (Z.min_l 0) by lia. rewrite Z.sub_0_r. simpl skipn.
  destruct (Z.le_gt_cases j (Z.of_nat (List.length a))) as [Hle | Hgt].
  - now rewrite Z.min_l by lia.
  - rewrite Z.min_r, Nat2Z.id by lia.
    rewrite !firstn_all2; [reflexivity | lia | lia].
Qed.

Lemma slice_suffix {A : Type} (a : list A) (i : Z) :
  0 <= i -> Js.slice a i None = skipn (Z.to_nat i) a.
Proof.
  intros Hi. unfold Js.slice, Js.clamp.
  destruct (Z.ltb_spec i 0) as [Hneg | _]; [lia |].
  destruct (Z.le_gt_cases i (Z.of_nat (List.length a))) as [Hle | Hgt].
  - rewrite Z.min_l by lia. apply firstn_all2. rewrite length_skipn. lia.
  - rewrite Z.min_r, Nat2Z.id by lia. rewrite Z.sub_diag. simpl firstn.
    rewrite skipn_all2; [reflexivity | lia].
Qed.

(** ** [split] and [join] *)

Lemma split_not_nil (sep : ascii) (s : str) : Js.split sep s <> [].
Proof.
  destruct s as [|c s]; simpl; [discriminate |].
  destruct (Ascii.eqb c sep); [discriminate |].
  destruct (Js.split sep s); discriminate.
Qed.

Lemma join_cons (sep : str) (part : str) (parts : list str) :
  parts <> [] ->
  Js.join sep (part :: parts) = part ++ sep ++ Js.join sep parts.
Proof. destruct parts; [easy | reflexivity]. Qed.

Lemma join_split (sep : ascii) (s : str) : Js.join [sep] (Js.split sep s) = s.
Proof.
  induction s as [|c s IH]; [reflexivity |]. simpl Js.split.
  destruct (Ascii.eqb_spec c sep) as [-> | Hc].
  - rewrite join_cons by apply split_not_nil. simpl. now rewrite IH.
  - pose proof (split_not_nil sep s) as Hne.
    destruct (Js.split sep s) as [|part parts]; [easy |].
    destruct parts as [|part' parts].
    + simpl in *. now rewrite IH.
    + rewrite join_cons by discriminate.
      rewrite join_cons in IH by discriminate.
      simpl. now rewrite <- IH.
Qed.

Lemma split_part (sep : ascii) (part : str) :
  ~ In sep part -> Js.split sep part = [part].
Proof.
  induction part as [|c part IH]; intros Hnot; [reflexivity |]. simpl.
  destruct (Ascii.eqb_spec c sep) as [-> | Hc]; [elim Hnot; now left |].
  rewrite IH; [reflexivity |]. intros Hin. apply Hnot. now right.
Qed.

Lemma split_app (sep : ascii) (part rest : str) :
  ~ In sep part ->
  Js.split sep (part ++ sep :: rest) = part :: Js.split sep rest.
Proof.
  induction part as [|c part IH]; intros Hnot; simpl.
  - now rewrite Ascii.eqb_refl.
  - destruct (Ascii.eqb_spec c sep) as [-> | Hc]; [elim Hnot; now left |].
    rewrite IH; [reflexivity |]. intros Hin. apply Hnot. now right.
Qed.

Lemma split_join (sep : ascii) (parts : list str) :
  parts <> [] -> Forall (fun part => ~ In sep part) parts ->
  Js.split sep (Js.join [sep] parts) = parts.
Proof.
  induction parts as [|part parts IH]; [easy |]. intros _ Hall.
  inversion Hall as [|? ? Hpart Hrest]; subst.
  destruct parts as [|part' parts].
  - simpl. now apply split_part.
  - rewrite join_cons by discriminate. simpl app.
    rewrite split_app by assumption. f_equal.
    apply IH; [discriminate | assumption].
Qed.

(** ** The parenthesised path of a line *)

Lemma untilClose_spec (s : str) :
  s = fst (untilClose s) ++ snd (untilClose s)
  /\ ~ In closeParen (fst (untilClose s))
  /\ (snd (untilClose s) = []
      \/ exists rest, snd (untilClose s) = closeParen :: rest).
Proof.
  induction s as [|c s (IHs & IHn & IHr)]; simpl.
  - repeat split; [easy | now left].
  - destruct (Ascii.eqb_spec c closeParen) as [-> | Hc]; simpl.
    + repeat split; [easy | right; now exists s].
    + repeat split; [now rewrite <- IHs | | exact IHr].
      intros [Hd | Hin]; [now elim Hc | now apply IHn].
Qed.

Lemma untilClose_app (group post : str) :
  ~ In closeParen group ->
  untilClose (group ++ closeParen :: post) = (group, closeParen :: post).
Proof.
  induction group as [|c group IH]; intros Hnot; cbn [untilClose app].
  - now rewrite Ascii.eqb_refl.
  - destruct (Ascii.eqb_spec c closeParen) as [-> | Hc];
      [elim Hnot; now left |].
    rewrite IH; [reflexivity |]. intros Hin. apply Hnot. now right.
Qed.

Lemma getDirectoryPath_here (group post : str) :
  group <> [] -> ~ In closeParen group ->
  getDirectoryPath (openParen :: group ++ closeParen :: post) = Some group.
Proof.
  intros Hne Hnot. cbn [getDirectoryPath]. rewrite Ascii.eqb_refl.
  rewrite untilClose_app by assumption. now destruct group.
Qed.

Lemma matchAt_cons (c : ascii) (pre group post rest : str) :
  matchAt (c :: pre) group post (c :: rest) <-> matchAt pre group post rest.
Proof.
  unfold matchAt. simpl. split; intros (E & Hne & Hn); repeat split; auto.
  - now inversion E.
  - now rewrite E.
Qed.

Lemma getDirectoryPath_leftmost (line : str) :
  match getDirectoryPath line with
  | Some group =>
      exists pre post,
        matchAt pre group post line
        /\ forall pre' group' post',
             matchAt pre' group' post' line ->
             (List.length pre <= List.length pre')%nat
  | None => forall pre group post, ~ matchAt pre group post line
  end.
Proof.
  induction line as [|c rest IH].
  - simpl. intros pre group post (E & _). now destruct pre.
  - destruct (getDirectoryPath (c :: rest)) as [group|] eqn:G.
    + (* is there a match at the head? *)
      destruct (Ascii.eqb_spec c openParen) as [-> | Hc].
      * cbn [getDirectoryPath] in G. rewrite Ascii.eqb_refl in G.
        destruct (untilClose_spec rest) as (Hs & Hn & Hr).
        destruct (untilClose rest) as [run after] eqn:U. simpl in Hs, Hn, Hr.
        destruct run as [|g run].
        { rewrite G in IH. destruct IH as (pre & post & Hm & Hmin).
          exists (openParen :: pre), post.
          split; [now apply (proj2 (matchAt_cons _ _ _ _ _)) |].
          intros [|d pre'] group' post' Hm'.
          - exfalso. destruct Hm' as (E & Hne & Hnn). simpl in E.
            inversion E as [E']. rewrite Hs in E'. simpl in E'.
            destruct Hr as [-> | [rest' ->]].
            + destruct group'; [easy | discriminate].
            + destruct group' as [|x group']; [easy |]. simpl in E'.
              inversion E'; subst x. elim Hnn. now left.
          - assert (d = openParen)
              by (destruct Hm' as (E & _); now inversion E).
            subst d. apply (proj1 (matchAt_cons _ _ _ _ _)) in Hm'. simpl.
            apply le_n_S. eapply Hmin; eassumption. }
        destruct after as [|d after].
        { rewrite G in IH. destruct IH as (pre & post & Hm & Hmin).
          exists (openParen :: pre), post.
          split; [now apply (proj2 (matchAt_cons _ _ _ _ _)) |].
          intros [|d pre'] group' post' Hm'.
          - exfalso. destruct Hm' as (E & Hne & Hnn). simpl in E.
            inversion E as [E']. rewrite Hs, app_nil_r in E'.
            apply Hn. rewrite E'. apply in_or_app. right. now left.
          - assert (d = openParen)
              by (destruct Hm' as (E & _); now inversion E).
            subst d. apply (proj1 (matchAt_cons _ _ _ _ _)) in Hm'. simpl.
            apply le_n_S. eapply Hmin; eassumption. }
        inversion G; subst group. clear G.
        destruct Hr as [Hr | [rest' Hr]]; [discriminate |]. inversion Hr; subst.
        exists [], rest'. split.
        { split; [reflexivity | split; [discriminate | exact Hn]]. }
        intros pre' group' post' _. simpl. lia.
      * cbn [getDirectoryPath] in G.
        destruct (Ascii.eqb_spec c openParen) as [E | _].
        { now elim Hc. }
        rewrite G in IH. destruct IH as (pre & post & Hm & Hmin).
        exists (c :: pre), post.
        split; [now apply (proj2 (matchAt_cons _ _ _ _ _)) |].
        intros [|d pre'] group' post' Hm'.
        -- exfalso. destruct Hm' as (E & _). simpl in E. inversion E. easy.
        -- assert (d = c) by (destruct Hm' as (E & _); now inversion E).
           subst d. apply (proj1 (matchAt_cons _ _ _ _ _)) in Hm'. simpl.
           apply le_n_S. eapply Hmin; eassumption.
    + intros [|d pre] group post Hm.
      * destruct Hm as (E & Hne & Hnn). simpl in E. inversion E; subst c rest.
        rewrite getDirectoryPath_here in G by assumption. discriminate.
      * assert (d = c) by (destruct Hm as (E & _); now inversion E).
        subst d. apply (proj1 (matchAt_cons _ _ _ _ _)) in Hm.
        assert (Hrest : getDirectoryPath rest = None).
        { cbn [getDirectoryPath] in G.
          destruct (Ascii.eqb c openParen); [| exact G].
          destruct (untilClose rest) as [[|g run] [|e after]];
            try exact G; discriminate. }
        rewrite Hrest in IH. eapply IH; eassumption.
Qed.

Lemma getDirectoryPath_skip (pre rest : str) :
  ~ In openParen pre -> getDirectoryPath (pre ++ rest) = getDirectoryPath rest.
Proof.
  induction pre as [|c pre IH]; intros Hnot; [reflexivity |].
  cbn [app getDirectoryPath].
  destruct (Ascii.eqb_spec c openParen) as [-> | Hc]; [elim Hnot; now left |].
  apply IH. intros Hin. apply Hnot. now right.
Qed.

Lemma getDirectoryPath_group (line group : str) :
  getDirectoryPath line = Some group ->
  group <> [] /\ ~ In closeParen group /\ In openParen line.
Proof.
  intros G. pose proof (getDirectoryPath_leftmost line) as L. rewrite G in L.
  destruct L as (pre & post & (E & Hne & Hn) & _). repeat split; auto.
  rewrite E. apply in_or_app. right. now left.
Qed.

(** ** The text before the parentheses *)

Lemma prefixOf_app (pre rest : str) :
  ~ In openParen pre ->
  prefixOf (pre ++ openParen :: rest) = pre ++ [openParen].
Proof.
  intros Hnot. unfold prefixOf, Js.indexOf. rewrite find_unit_app by assumption.
  rewrite slice_prefix by lia.
  replace (Z.to_nat (Z.of_nat (List.length pre) + 1))
    with (List.length pre + 1)%nat by lia.
  rewrite firstn_app, firstn_all2 by lia.
  replace (List.length pre + 1 - List.length pre)%nat with 1%nat by lia.
  reflexivity.
Qed.

Lemma prefixOf_prefix (line : str) : exists rest, line = prefixOf line ++ rest.
Proof.
  unfold prefixOf, Js.indexOf.
  destruct (Js.find [openParen] line) as [i|];
    rewrite slice_prefix by lia; eexists; symmetry; apply firstn_skipn.
Qed.

Lemma line_with_paren (line : str) :
  In openParen line ->
  exists pre rest, line = pre ++ openParen :: rest /\ ~ In openParen pre.
Proof.
  intros Hin. destruct (Js.find [openParen] line) as [i|] eqn:F.
  - destruct (find_unit_inv _ _ _ F) as (pre & rest & E & Hnot & _).
    now exists pre, rest.
  - now apply find_unit_None in F.
Qed.

(** ** The three trimming functions *)

Lemma indexOf_found (needle s : str) (i : nat) :
  Js.find needle s = Some i ->
  Js.indexOf needle s = Z.of_nat i /\ (Js.indexOf needle s =? -1) = false.
Proof.
  intros F. unfold Js.indexOf. rewrite F. split; [reflexivity |].
  apply Z.eqb_neq. lia.
Qed.

Lemma indexOf_missing (needle s : str) :
  Js.find needle s = None -> (Js.indexOf needle s =? -1) = true.
Proof. intros F. unfold Js.indexOf. now rewrite F. Qed.

Lemma trimSnarkyJSPath_found (line fullPath : str) (i : nat) :
  getDirectoryPath line = Some fullPath ->
  Js.find (lit "snarkyjs") fullPath = Some i ->
  trimSnarkyJSPath line = prefixOf line ++ skipn i fullPath ++ [closeParen].
Proof.
  intros G F. unfold trimSnarkyJSPath. rewrite G.
  destruct (getDirectoryPath_group _ _ G) as (Hne & _).
  destruct fullPath as [|c fullPath]; [easy |].
  destruct (indexOf_found _ _ _ F) as [-> ->].
  rewrite slice_suffix, Nat2Z.id by lia. reflexivity.
Qed.


Lemma findLast_spec (x : str) (parts : list str) (j : nat) :
  Js.findLast x parts = Some j ->
  nth_error parts j = Some x /\ ~ In x (skipn (S j) parts).
Proof.
  revert j; induction parts as [|part parts IH]; intros j; [discriminate |].
  cbn [Js.findLast]. destruct (Js.findLast x parts) as [i|] eqn:E.
  - intros [= <-]. destruct (IH i eq_refl) as [Hn Hs]. now split.
  - destruct (Js.eqb part x) eqn:Q; [| discriminate]. intros [= <-].
    apply Js_eqb_eq in Q. subst part. split; [reflexivity |]. simpl.
    clear IH. induction parts as [|p parts IHp]; [easy |].
    cbn [Js.findLast] in E. destruct (Js.findLast x parts); [discriminate |].
    destruct (Js.eqb p x) eqn:Q; [discriminate |].
    intros [Hp | Hin]; [| now apply IHp].
    subst p. assert (Js.eqb x x = true) by now apply Js_eqb_eq. congruence.
Qed.

Lemma trimOpamPath_found (line fullPath : str) (i j : nat) :
  getDirectoryPath line = Some fullPath ->
  Js.find (lit "opam") fullPath = Some i ->
  Js.findLast (lit "lib") (Js.split slash (skipn i fullPath)) = Some j ->
  trimOpamPath line
  = prefixOf line
      ++ Js.join [slash]
           (lit "ocaml" :: skipn (S j) (Js.split slash (skipn i fullPath)))
      ++ [closeParen].
Proof.
  intros G F L. unfold trimOpamPath. rewrite G.
  destruct (getDirectoryPath_group _ _ G) as (Hne & _).
  destruct fullPath as [|c fullPath]; [easy |].
  destruct (indexOf_found _ _ _ F) as [-> ->].
  rewrite slice_suffix, Nat2Z.id by lia.
  unfold Js.lastIndexOf. rewrite L.
  replace (Z.of_nat j =? -1) with false by (symmetry; apply Z.eqb_neq; lia).
  rewrite slice_suffix by lia.
  replace (Z.to_nat (Z.of_nat j + 1)) with (S j) by lia. reflexivity.
Qed.

Lemma trim_keeps_prefix (line : str) :
  (exists rest, trimSnarkyJSPath line = prefixOf line ++ rest)
  /\ (exists rest, trimOpamPath line = prefixOf line ++ rest)
  /\ (exists rest, trimWorkspacePath line = prefixOf line ++ rest).
Proof.
  pose proof (prefixOf_prefix line) as Hsame.
  unfold trimSnarkyJSPath, trimOpamPath, trimWorkspacePath.
  destruct (getDirectoryPath line) as [[|c fullPath]|]; auto.
  repeat split.
  - destruct (_ =? -1); [exact Hsame | now eexists].
  - destruct (_ =? -1); [exact Hsame |].
    destruct (_ =? -1); [exact Hsame | now eexists].
  - destruct (_ =? -1); [exact Hsame | now eexists].
Qed.

Lemma trimPaths_without_path (line : str) :
  getDirectoryPath line = None -> trimPaths line = line.
Proof.
  intros G. unfold trimPaths, trimSnarkyJSPath, trimOpamPath,
    trimWorkspacePath. rewrite G.
  now destruct (Js.includes (lit "snarkyjs") line),
    (Js.includes (lit "opam") line),
    (Js.includes (lit "workspace_root") line).
Qed.

Lemma In_skipn {A : Type} (x : A) (n : nat) (l : list A) :
  In x (skipn n l) -> In x l.
Proof.
  intros Hin. rewrite <- (firstn_skipn n l). apply in_or_app. now right.
Qed.

(** X11.  [getDirectoryPath] returns the group of the leftmost place of
    the line where [(] is followed by one or more code units other than
    [)] and then by [)], and [undefined] exactly when the line has no such
    place. *)
Theorem getDirectoryPath_leftmost_match (line : str) :
  match getDirectoryPath line with
  | Some group =>
      exists pre post,
        matchAt pre group post line
        /\ forall pre' group' post',
             matchAt pre' group' post' line ->
             (List.length pre <= List.length pre')%nat
  | None => forall pre group post, ~ matchAt pre group post line
  end.
Proof. apply getDirectoryPath_leftmost. Qed.

(** X12.  Trimming the snarkyjs path of a line that was already trimmed
    changes nothing. *)
Theorem trimSnarkyJSPath_idempotent (line : str) :
  trimSnarkyJSPath (trimSnarkyJSPath line) = trimSnarkyJSPath line.
Proof.
  destruct (getDirectoryPath line) as [fullPath|] eqn:G.
  2: { unfold trimSnarkyJSPath at 2. rewrite G.
       unfold trimSnarkyJSPath. now rewrite G. }
  destruct (Js.find (lit "snarkyjs") fullPath) as [i|] eqn:F.
  2: { assert (E : trimSnarkyJSPath line = line).
       { unfold trimSnarkyJSPath. rewrite G.
         destruct fullPath; [reflexivity |].
         now rewrite (indexOf_missing _ _ F). }
       now rewrite !E. }
  rewrite (trimSnarkyJSPath_found _ _ _ G F).
  destruct (getDirectoryPath_group _ _ G) as (_ & Hclose & Hopen).
  destruct (line_with_paren _ Hopen) as (pre & rest & -> & Hpre).
  rewrite prefixOf_app by assumption.
  destruct (find_suffix _ _ _ F) as [post U].
  assert (Hne : skipn i fullPath <> []) by (rewrite U; discriminate).
  assert (Hn : ~ In closeParen (skipn i fullPath)).
  { intros Hin. apply Hclose. eapply In_skipn; eassumption. }
  set (updatedPath := skipn i fullPath) in *.
  assert (G' : getDirectoryPath
                 ((pre ++ [openParen]) ++ updatedPath ++ [closeParen])
               = Some updatedPath).
  { rewrite <- app_assoc. rewrite getDirectoryPath_skip by assumption.
    simpl app. now apply getDirectoryPath_here. }
  assert (F' : Js.find (lit "snarkyjs") updatedPath = Some 0%nat).
  { rewrite U. apply find_head. }
  rewrite (trimSnarkyJSPath_found _ _ _ G' F'). simpl skipn.
  f_equal. rewrite <- app_assoc. simpl app. now apply prefixOf_app.
Qed.

(** X13.  [trimPaths] never changes the text of a line up to and with its
    first [(], and returns a line without a parenthesised path as it
    is. *)
Theorem trimPaths_keeps_prefix (line : str) :
  (exists rest, trimPaths line = prefixOf line ++ rest)
  /\ (getDirectoryPath line = None -> trimPaths line = line).
Proof.
  split; [| apply trimPaths_without_path].
  destruct (trim_keeps_prefix line) as (Hs & Ho & Hw).
  unfold trimPaths.
  destruct (Js.includes (lit "snarkyjs") line); [exact Hs |].
  destruct (Js.includes (lit "opam") line); [exact Ho |].
  destruct (Js.includes (lit "workspace_root") line); [exact Hw |].
  apply prefixOf_prefix.
Qed.


(** X16.  When the path from [opam] on has a segment [lib],
    [trimOpamPath] puts between the parentheses the segment [ocaml]
    followed by the segments after the last [lib], none of which is
    [lib]. *)
Theorem trimOpamPath_after_lib (line fullPath : str) (i j : nat) :
  let segments := Js.split slash (skipn i fullPath) in
  getDirectoryPath line = Some fullPath ->
  Js.find (lit "opam") fullPath = Some i ->
  Js.findLast (lit "lib") segments = Some j ->
  trimOpamPath line
  = prefixOf line
      ++ Js.join [slash] (lit "ocaml" :: skipn (S j) segments)
      ++ [closeParen]
  /\ nth_error segments j = Some (lit "lib")
  /\ ~ In (lit "lib") (skipn (S j) segments).
Proof.
  cbv zeta. intros G F L. split; [now apply trimOpamPath_found |].
  now apply findLast_spec.
Qed.

(** ** The prettifier and the decorator *)

Lemma keptLines_plain (lines : list str) :
  Forall
    (fun line =>
       existsb (fun keyword => Js.includes keyword line) lineRemovalKeywords
       = false
       /\ trimPaths line = line)
    lines ->
  keptLines lines = lines.
Proof.
  induction 1 as [|line lines [Hk Ht] _ IH]; [reflexivity |].
  cbn [keptLines]. cbv zeta. now rewrite Hk, Ht, IH.
Qed.

Lemma keptLines_removed (lines : list str) :
  Forall
    (fun line =>
       existsb (fun keyword => Js.includes keyword line) lineRemovalKeywords
       = true)
    lines ->
  keptLines lines = [].
Proof.
  induction 1 as [|line lines Hk _ IH]; [reflexivity |].
  cbn [keptLines]. cbv zeta. now rewrite Hk.
Qed.

Lemma trimPaths_plain (line : str) :
  Js.includes (lit "snarkyjs") line = false ->
  Js.includes (lit "opam") line = false ->
  Js.includes (lit "workspace_root") line = false ->
  trimPaths line = line.
Proof. intros Hs Ho Hw. unfold trimPaths. now rewrite Hs, Ho, Hw. Qed.

(** X17.  A stack none of whose lines includes a removal keyword, and
    whose lines each have no parenthesised path or include none of
    [snarkyjs], [opam] and [workspace_root], is returned as it is. *)
Theorem prettifyStacktrace_plain (e : ErrorObject) (stacktrace : str) :
  stack e = Some stacktrace ->
  stacktrace <> [] ->
  (forall line,
     In line (Js.split newline stacktrace) ->
     existsb (fun keyword => Js.includes keyword line) lineRemovalKeywords
     = false
     /\ (getDirectoryPath line = None
         \/ Js.includes (lit "snarkyjs") line = false
            /\ Js.includes (lit "opam") line = false
            /\ Js.includes (lit "workspace_root") line = false)) ->
  prettifyStacktrace (AnError e) = Some stacktrace.
Proof.
  intros Hstack Hne Hlines. unfold prettifyStacktrace. rewrite Hstack.
  destruct stacktrace as [|c stacktrace]; [easy |].
  rewrite keptLines_plain; [now rewrite join_split |].
  apply Forall_forall. intros line Hin.
  destruct (Hlines line Hin) as [Hk [Hnone | (Hs & Ho & Hw)]].
  - split; [exact Hk | now apply trimPaths_without_path].
  - split; [exact Hk | now apply trimPaths_plain].
Qed.

(** X19.  When every line of the stack includes a removal keyword the
    pretty stack is the empty string, and the error is thrown again with
    its stack as it was. *)
Theorem rethrown_when_all_lines_removed (e : ErrorObject) (stacktrace : str) :
  stack e = Some stacktrace ->
  stacktrace <> [] ->
  (forall line,
     In line (Js.split newline stacktrace) ->
     existsb (fun keyword => Js.includes keyword line) lineRemovalKeywords
     = true) ->
  prettifyStacktrace (AnError e) = Some []
  /\ rethrown (AnError e) = AnError e.
Proof.
  intros Hstack Hne Hlines.
  assert (P : prettifyStacktrace (AnError e) = Some []).
  { unfold prettifyStacktrace. rewrite Hstack.
    destruct stacktrace as [|c stacktrace]; [easy |].
    rewrite keptLines_removed; [reflexivity |]. now apply Forall_forall. }
  split; [exact P |]. unfold rethrown. now rewrite P.
Qed.

(** X20.  The decorated method returns what the method returns, a promise
    that is fulfilled or still pending included; what the method throws,
    or its promise is rejected with, is thrown again with the same message,
    a value that is not an [Error] unchanged, and the stack of an [Error]
    either as it was or replaced by the pretty stack, which is then not
    empty. *)
Theorem CatchAndPrettifyStacktrace_changes_stack_only {Args A : Type}
    (originalMethod : Args -> Completion (Value A)) (args : Args) :
  let decorated := CatchAndPrettifyStacktrace originalMethod args in
  (forall a, originalMethod args = Normal (Plain a) ->
             decorated = Normal (Plain a))
  /\ (forall a, originalMethod args = Normal (APromise (Fulfilled a)) ->
                decorated = Normal (APromise (Fulfilled a)))
  /\ (originalMethod args = Normal (APromise Pending) ->
      decorated = Normal (APromise Pending))
  /\ (forall error,
        originalMethod args = Normal (APromise (Rejected error)) ->
        decorated = Normal (APromise (Rejected (rethrown error))))
  /\ (forall error,
        originalMethod args = Throw error -> decorated = Throw (rethrown error))
  /\ (forall v, rethrown (NotAnError v) = NotAnError v)
  /\ (forall e,
        exists e',
          rethrown (AnError e) = AnError e'
          /\ message e' = message e
          /\ (stack e' = stack e
              \/ exists pretty,
                   pretty <> [] /\ stack e' = Some pretty
                   /\ prettifyStacktrace (AnError e) = Some pretty)).
Proof.
  cbv zeta. unfold CatchAndPrettifyStacktrace.
  repeat split;
    try (intros;
         match goal with
         | E : originalMethod args = _ |- _ => now rewrite E
         end).
  intros e. unfold rethrown.
  destruct (prettifyStacktrace (AnError e)) as [[|c pretty]|] eqn:P.
  - exists e. repeat split. now left.
  - eexists. repeat split. right. eexists. repeat split. discriminate.
  - exists e. repeat split. now left.
Qed.

(** ** The lines of a pretty stack *)

Lemma split_parts_free (sep : ascii) (s : str) :
  Forall (fun part => ~ In sep part) (Js.split sep s).
Proof.
  induction s as [|c s IH]; simpl; [now repeat constructor |].
  destruct (Ascii.eqb_spec c sep) as [-> | Hc]; [now constructor |].
  destruct (Js.split sep s) as [|part parts]; [repeat constructor |].
  - intros [Hd | []]. now elim Hc.
  - inversion IH as [|? ? Hpart Hparts]; subst. constructor; [| exact Hparts].
    intros [Hd | Hin]; [now elim Hc | now apply Hpart].
Qed.

Lemma In_split (sep : ascii) (s part : str) (c : ascii) :
  In part (Js.split sep s) -> In c part -> In c s.
Proof.
  revert part; induction s as [|d s IH]; intros part; simpl.
  - intros [<- | []] [].
  - destruct (Ascii.eqb d sep).
    + intros [<- | Hin] Hc; [easy | right; eapply IH; eassumption].
    + destruct (Js.split sep s) as [|p parts].
      * intros [<- | []] [-> | []]. now left.
      * intros [<- | Hin] Hc.
        -- destruct Hc as [-> | Hc]; [now left | right].
           apply (IH p); [now left | exact Hc].
        -- right. apply (IH part); [now right | exact Hc].
Qed.

Lemma In_join (sep : str) (parts : list str) (c : ascii) :
  In c (Js.join sep parts) ->
  In c sep \/ exists part, In part parts /\ In c part.
Proof.
  induction parts as [|part parts IH]; [intros [] |].
  destruct parts as [|part' parts].
  - simpl. intros Hc. right. exists part. split; [now left | exact Hc].
  - rewrite join_cons by discriminate. intros Hc.
    apply in_app_or in Hc as [Hc | Hc];
      [right; exists part; split; [now left | exact Hc] |].
    apply in_app_or in Hc as [Hc | Hc]; [now left |].
    destruct (IH Hc) as [Hs | (p & Hp & Hcp)]; [now left |].
    right. exists p. split; [now right | exact Hcp].
Qed.

Lemma In_firstn {A : Type} (x : A) (n : nat) (l : list A) :
  In x (firstn n l) -> In x l.
Proof.
  intros Hin. rewrite <- (firstn_skipn n l). apply in_or_app. now left.
Qed.

Lemma In_slice {A : Type} (a : list A) (start : Z) (end_ : option Z) (x : A) :
  In x (Js.slice a start end_) -> In x a.
Proof.
  unfold Js.slice. intros Hin.
  eapply In_skipn. eapply In_firstn. exact Hin.
Qed.

Lemma In_group (line group : str) (c : ascii) :
  getDirectoryPath line = Some group -> In c group -> In c line.
Proof.
  intros G Hc. pose proof (getDirectoryPath_leftmost line) as L.
  rewrite G in L. destruct L as (pre & post & (E & _) & _). rewrite E.
  apply in_or_app. right. right. apply in_or_app. now left.
Qed.

Lemma trimPaths_units (line : str) (c : ascii) :
  In c (trimPaths line) ->
  In c line \/ In c (lit "ocaml") \/ c = slash \/ c = closeParen.
Proof.
  assert (Hprefix : In c (prefixOf line) -> In c line)
    by (unfold prefixOf; apply In_slice).
  assert (Hlast : In c [closeParen] -> c = closeParen)
    by (intros [E | []]; now symmetry).
  unfold trimPaths, trimSnarkyJSPath, trimOpamPath, trimWorkspacePath.
  destruct (getDirectoryPath line) as [[|d fullPath]|] eqn:G;
    try (destruct (Js.includes (lit "snarkyjs") line),
           (Js.includes (lit "opam") line),
           (Js.includes (lit "workspace_root") line); now left).
  assert (Hpath : forall x, In x (d :: fullPath) -> In x line)
    by (intros x; now apply In_group).
  destruct (Js.includes (lit "snarkyjs") line).
  { destruct (_ =? -1); [now left |]. intros Hc.
    apply in_app_or in Hc as [Hc | Hc]; [left; auto |].
    apply in_app_or in Hc as [Hc | Hc]; [| auto].
    left. apply Hpath. eapply In_slice. exact Hc. }
  destruct (Js.includes (lit "opam") line).
  { destruct (_ =? -1); [now left |]. destruct (_ =? -1); [now left |].
    intros Hc. apply in_app_or in Hc as [Hc | Hc]; [left; auto |].
    apply in_app_or in Hc as [Hc | Hc]; [| auto].
    apply In_join in Hc as [[<- | []] | (part & Hpart & Hc)]; [auto |].
    destruct Hpart as [<- | Hpart]; [auto |].
    left. apply Hpath. apply In_slice in Hpart.
    eapply In_slice. eapply In_split; eassumption. }
  destruct (Js.includes (lit "workspace_root") line); [| now left].
  destruct (_ =? -1); [now left |].
  intros Hc. apply in_app_or in Hc as [Hc | Hc]; [left; auto |].
  apply in_app_or in Hc as [Hc | Hc]; [| auto].
  apply In_join in Hc as [[<- | []] | (part & Hpart & Hc)]; [auto |].
  left. apply Hpath. apply In_slice in Hpart.
  eapply In_slice. eapply In_split; eassumption.
Qed.

Lemma keptLines_filter (lines : list str) :
  keptLines lines
  = map trimPaths
      (filter
         (fun line =>
            negb (existsb (fun keyword => Js.includes keyword line)
                    lineRemovalKeywords))
         lines).
Proof.
  induction lines as [|line lines IH]; [reflexivity |].
  cbn [keptLines filter]. cbv zeta.
  destruct (existsb _ lineRemovalKeywords); simpl; now rewrite IH.
Qed.

Lemma keptLines_free (lines : list str) :
  Forall (fun line => ~ In newline line) lines ->
  Forall (fun line => ~ In newline line) (keptLines lines).
Proof.
  induction 1 as [|line lines Hline _ IH]; [constructor |].
  cbn [keptLines]. cbv zeta. destruct (existsb _ lineRemovalKeywords);
    [exact IH |].
  constructor; [| exact IH]. intros Hin.
  apply trimPaths_units in Hin as [Hin | [Hin | [Hin | Hin]]];
    [now apply Hline | | discriminate | discriminate].
  vm_compute in Hin. repeat (destruct Hin as [Hin | Hin]; [discriminate |]).
  exact Hin.
Qed.

(** X18.  The lines of the pretty stack are the lines of the stack that
    include no removal keyword, each trimmed, in the same order; when no
    line is left the pretty stack is the empty string. *)
Theorem prettifyStacktrace_lines (e : ErrorObject) (stacktrace : str) :
  let kept :=
    map trimPaths
      (filter
         (fun line =>
            negb (existsb (fun keyword => Js.includes keyword line)
                    lineRemovalKeywords))
         (Js.split newline stacktrace)) in
  stack e = Some stacktrace ->
  stacktrace <> [] ->
  exists pretty,
    prettifyStacktrace (AnError e) = Some pretty
    /\ (kept <> [] -> Js.split newline pretty = kept)
    /\ (kept = [] -> pretty = []).
Proof.
  cbv zeta. intros Hstack Hne. unfold prettifyStacktrace. rewrite Hstack.
  destruct stacktrace as [|c stacktrace]; [easy |].
  eexists. split; [reflexivity |]. rewrite <- keptLines_filter. split.
  - intros Hkept. apply split_join; [exact Hkept |].
    apply keptLines_free, split_parts_free.
  - now intros ->.
Qed.

(** X14.  A line that includes [snarkyjs] outside its parenthesised path
    is returned as it is, even when the path includes [opam] or
    [workspace_root]: the other two trimmings are not tried. *)
Theorem trimPaths_snarkyjs_first (line fullPath : str) :
  Js.includes (lit "snarkyjs") line = true ->
  getDirectoryPath line = Some fullPath ->
  Js.find (lit "snarkyjs") fullPath = None ->
  trimPaths line = line.
Proof.
  intros Hs G F. unfold trimPaths. rewrite Hs.
  unfold trimSnarkyJSPath. rewrite G.
  destruct fullPath; [reflexivity |]. now rewrite (indexOf_missing _ _ F).
Qed.

(** ** The hypotheses above hold on the sample data *)


Lemma sample_small_is_itself (v : Z) :
  0 <= v < 2 ^ (sampleSizeInBits - 1) -> sampleFieldOf v = v.
Proof.
  intros Hv. unfold sampleFieldOf. apply Z.mod_small.
  assert (Hp : 2 ^ (sampleSizeInBits - 1) <= sampleModulus)
    by (apply Z.leb_le; vm_compute; reflexivity).
  lia.
Qed.

Lemma toFieldsCompressed_lossless_witness :
  0 <= sampleBytesToBigInt bytesHigh < 2 ^ sampleSizeInBits
  /\ exists r,
       Scalar.toFieldsCompressed sampleSizeInBits sampleFieldOf
         sampleBytesToBigInt (Scalar.mk true (Some bytesHigh))
       = Scalar.Returns r
       /\ 0 <= Scalar.field r < 2 ^ (sampleSizeInBits - 1)
       /\ sampleBytesToBigInt bytesHigh
          = Scalar.field r
            + (if Scalar.highBit r then 2 ^ (sampleSizeInBits - 1) else 0).
Proof.
  assert (Hx : 0 <= sampleBytesToBigInt bytesHigh < 2 ^ sampleSizeInBits)
    by (split; [apply Z.leb_le | apply Z.ltb_lt]; vm_compute; reflexivity).
  split; [exact Hx |].
  apply (toFieldsCompressed_lossless sampleSizeInBits sampleFieldOf
           sampleBytesToBigInt);
    [unfold sampleSizeInBits; lia | exact sample_small_is_itself | exact Hx].
Defined.

Lemma toFieldsCompressed_bits_witness :
  exists r,
    Scalar.toFieldsCompressed sampleSizeInBits sampleFieldOf
      sampleBytesToBigInt (Scalar.mk true (Some bytesBeyond))
    = Scalar.Returns r
    /\ Scalar.field r
       = sampleBytesToBigInt bytesBeyond mod 2 ^ (sampleSizeInBits - 1)
    /\ (Scalar.highBit r = true
        <-> 2 ^ (sampleSizeInBits - 1) <= sampleBytesToBigInt bytesBeyond
            < 2 ^ sampleSizeInBits).
Proof.
  apply (toFieldsCompressed_bits sampleSizeInBits sampleFieldOf
           sampleBytesToBigInt);
    [unfold sampleSizeInBits; lia | exact sample_small_is_itself].
Defined.

Lemma trimPaths_snarkyjs_first_witness : trimPaths lineShadowed = lineShadowed.
Proof.
  apply (trimPaths_snarkyjs_first lineShadowed
           (lit "/home/u/.opam/4.14/lib/ocaml/list.ml:3:4"));
    vm_compute; reflexivity.
Defined.


Lemma trimOpamPath_after_lib_witness :
  trimOpamPath lineOpam
  = prefixOf lineOpam
      ++ Js.join [slash] [lit "ocaml"; lit "ocaml"; lit "list.ml:3:4"]
      ++ [closeParen]
  /\ nth_error [lit "opam"; lit "4.14"; lit "lib"; lit "ocaml";
                lit "list.ml:3:4"] 2
     = Some (lit "lib")
  /\ ~ In (lit "lib") [lit "ocaml"; lit "list.ml:3:4"].
Proof.
  apply (trimOpamPath_after_lib lineOpam
           (lit "/home/u/.opam/4.14/lib/ocaml/list.ml:3:4") 9 2);
    vm_compute; reflexivity.
Defined.

Lemma prettifyStacktrace_plain_witness :
  prettifyStacktrace
    (AnError {| message := lit "boom"; stack := Some stackPlain |})
  = Some stackPlain.
Proof.
  apply prettifyStacktrace_plain; [reflexivity | discriminate |].
  intros line Hin. vm_compute in Hin.
  destruct Hin as [<- | [<- | []]]; vm_compute;
    (split; [reflexivity | right; repeat split]).
Defined.

Lemma prettifyStacktrace_lines_witness :
  let kept :=
    [lit "Error: boom"; lit "    at f (snarkyjs/dist/lib/a.js:1:2)"] in
  exists pretty,
    prettifyStacktrace
      (AnError {| message := lit "boom"; stack := Some stackMixed |})
    = Some pretty
    /\ (kept <> [] -> Js.split newline pretty = kept)
    /\ (kept = [] -> pretty = []).
Proof.
  apply (prettifyStacktrace_lines
           {| message := lit "boom"; stack := Some stackMixed |} stackMixed);
    [reflexivity | discriminate].
Defined.

Lemma rethrown_when_all_lines_removed_witness :
  prettifyStacktrace
    (AnError {| message := lit "boom"; stack := Some stackRemoved |})
  = Some []
  /\ rethrown (AnError {| message := lit "boom"; stack := Some stackRemoved |})
     = AnError {| message := lit "boom"; stack := Some stackRemoved |}.
Proof.
  apply (rethrown_when_all_lines_removed
           {| message := lit "boom"; stack := Some stackRemoved |}
           stackRemoved);
    [reflexivity | discriminate |].
  intros line Hin. vm_compute in Hin.
  destruct Hin as [<- | [<- | []]]; vm_compute; reflexivity.
Defined.
